(** * Concept matching and query templating of olympix (solidair)

    A shallow embedding of the Go sources under [cmd/], [pkg/],
    [variables/] and the embedding package, covering:
    - the float32 similarity score ([CosineSimilarity]);
    - the embedding matcher with its per-run cache ([EmbeddingMatcher]);
    - query templates ([ParseQueryTemplate], [SubstituteParameters],
      [ProcessTemplatedQueries]) and [strings.ReplaceAll];
    - the [analyze-smart] pipeline ([analyzeSmartMain], [RunQueries]);
    - the layered concept loader ([LoadSecurityConcepts]);
    - identifier extraction ([ExtractVariables]).

    Go [float32] arithmetic is modelled with the IEEE-754 specification
    [spec_float] of the standard library at precision 24 and maximal
    exponent 128 (binary32); [float64] uses precision 53 and 1024.  Go
    maps are stdpp [gmap]s; the iteration order of a Go map is any
    permutation of its bindings. *)

From Stdlib Require Import ZArith Ascii String.
From Stdlib Require Import Floats.SpecFloat Sorted.
From stdpp Require Import base gmap strings list.

Local Open Scope string_scope.

(* ================================================================= *)
(** ** Go float32 and float64 *)

Module GoFloat.

Definition prec32 : Z := 24.
Definition emax32 : Z := 128.
Definition prec64 : Z := 53.
Definition emax64 : Z := 1024.

(** A Go [float32] (or [float64]) value.  [S754_nan] carries no payload. *)
Definition float32 := spec_float.
Definition float64 := spec_float.

Definition add32 : float32 -> float32 -> float32 := SFadd prec32 emax32.
Definition mul32 : float32 -> float32 -> float32 := SFmul prec32 emax32.
Definition div32 : float32 -> float32 -> float32 := SFdiv prec32 emax32.
Definition sqrt64 : float64 -> float64 := SFsqrt prec64 emax64.

(** Go's [==] and [>=] on floats (false as soon as one side is NaN). *)
Definition eq32 (x y : float32) : bool := SFeqb x y.
Definition ge32 (x y : float32) : bool := SFleb y x.
Definition gt32 (x y : float32) : bool := SFltb y x.

(** The conversions [float64(x)] and [float32(x)]: rounding to nearest,
    ties to even, into the target format.  [float64] of a [float32] is
    exact. *)
Definition convert (prec emax : Z) (x : spec_float) : spec_float :=
  match x with
  | S754_finite s m e => binary_round prec emax s m e
  | _ => x
  end.
Definition to64 : float32 -> float64 := convert prec64 emax64.
Definition to32 : float64 -> float32 := convert prec32 emax32.

(** The float32 zero value ([var x float32], the constant [0]). *)
Definition zero32 : float32 := S754_zero false.

(** [float32(n)] for an integer [n] (a byte value, or a constant such as
    [255.0]). *)
Definition of_Z32 (n : Z) : float32 := binary_normalize prec32 emax32 n 0 false.

(** A decimal constant [p / q] converted to float32 as Go does for
    untyped constants: the exact rational rounded once. *)
Definition ratio32 (p q : Z) : float32 := div32 (of_Z32 p) (of_Z32 q).

End GoFloat.

Import GoFloat.

(* ================================================================= *)
(** ** Data model (cmd/embeddings.go, types) *)

(** [type Embedding struct { Vector []float32 }] *)
Module Embedding.
Record t := mk { Vector : list float32 }.
End Embedding.

(** [type VariableInfo struct] *)
Module VariableInfo.
Record t := mk {
  Name : string;
  Type' : string;        (* Go field Type *)
  Context : string;
  ParentName : string;
  LineNumber : N;        (* uint32 *)
  Comments : list string }.
End VariableInfo.

(** [type SecurityConcept struct] *)
Module SecurityConcept.
Record t := mk {
  Name : string;
  Description : string;
  Synonyms : list string;
  Embedding : Embedding.t }.
End SecurityConcept.

(** [type ConceptMatch struct] *)
Module ConceptMatch.
Record t := mk {
  Variable' : VariableInfo.t;   (* Go field Variable *)
  Concept : string;
  SimilarityScore : float32 }.
End ConceptMatch.

(* ================================================================= *)
(** ** CosineSimilarity (cmd/embeddings.go, pkg/embedding) *)

(** The loop
    [for i := 0; i < len(a.Vector); i++ { dotProduct += a[i]*b[i];
     normA += a[i]*a[i]; normB += b[i]*b[i] }], run on two vectors of
    equal length.  Every operation is rounded separately (no fused
    multiply-add). *)
Fixpoint cosine_loop (a b : list float32) (dot na nb : float32)
  : float32 * float32 * float32 :=
  match a, b with
  | x :: a', y :: b' =>
      cosine_loop a' b' (add32 dot (mul32 x y)) (add32 na (mul32 x x))
        (add32 nb (mul32 y y))
  | _, _ => (dot, na, nb)
  end.

Definition CosineSimilarity (a b : Embedding.t) : float32 :=
  let va := Embedding.Vector a in
  let vb := Embedding.Vector b in
  if (length va =? 0)%nat || (length vb =? 0)%nat then zero32
  else if negb (length va =? length vb)%nat then zero32
  else
    let '(dotProduct, normA, normB) := cosine_loop va vb zero32 zero32 zero32 in
    let normA := to32 (sqrt64 (to64 normA)) in
    let normB := to32 (sqrt64 (to64 normB)) in
    if eq32 normA zero32 || eq32 normB zero32 then zero32
    else div32 dotProduct (mul32 normA normB).

(** [getOfflineEmbedding]: three components, [float32(name[i%len(name)]) /
    255.0] for [i < len(name)] and [0] otherwise. *)
Definition offline_component (name : string) (i : nat) : float32 :=
  if (i <? String.length name)%nat then
    match String.get (i mod String.length name) name with
    | Some ch => div32 (of_Z32 (Z.of_nat (nat_of_ascii ch))) (of_Z32 255)
    | None => zero32
    end
  else zero32.

Definition getOfflineEmbedding (name : string) : Embedding.t :=
  Embedding.mk (map (offline_component name) (seq 0 3)).

(* ================================================================= *)
(** ** Results, and a state monad for the matcher *)

(** A Go [(T, error)] pair: exactly one of the two is meaningful. *)
Inductive result (A : Type) : Type :=
| Ok (a : A)
| Err (e : string).
Arguments Ok {A} a.
Arguments Err {A} e.

(** An invocation of an embedding strategy: the byte-derived offline
    computation or a request to the remote service. *)
Inductive StrategyCall :=
| OfflineCall (text : string)
| RemoteCall (text : string).

(** The mutable state shared by the matcher's methods: the map behind
    [m.Cache.Variables] and the log of strategy invocations. *)
Record MatcherState := mkState {
  Cache : gmap string Embedding.t;
  Calls : list StrategyCall }.

Definition log_call (c : StrategyCall) (s : MatcherState) : MatcherState :=
  mkState (Cache s) (app (Calls s) [c]).

Definition cache_put (k : string) (e : Embedding.t) (s : MatcherState) : MatcherState :=
  mkState (<[k := e]> (Cache s)) (Calls s).

Definition M (A : Type) := MatcherState -> result A * MatcherState.

Definition ret {A} (a : A) : M A := fun s => (Ok a, s).

Definition bind {A B} (c : M A) (k : A -> M B) : M B :=
  fun s => match c s with
           | (Ok a, s') => k a s'
           | (Err e, s') => (Err e, s')
           end.

Notation "x <- c ;; k" := (bind c (fun x => k))
  (at level 100, c at next level, right associativity).

(** [type EmbeddingMatcher struct]; the [Cache] pointer lives in the
    state, [OpenAI] is the remote strategy of the section below. *)
Module EmbeddingMatcher.
Record t := mk {
  Concepts : list SecurityConcept.t;
  SimilarityThreshold : float32;
  Offline : bool }.
End EmbeddingMatcher.

(** [NewEmbeddingMatcher]: default threshold [0.7], fresh empty cache. *)
Definition NewEmbeddingMatcher (concepts : list SecurityConcept.t) (offline : bool)
  : EmbeddingMatcher.t :=
  EmbeddingMatcher.mk concepts (ratio32 7 10) offline.

Definition fresh_state : MatcherState := mkState ∅ [].

(** [sort.Slice(matches, func(i, j) { return s[i] > s[j] })].  For slices
    of at most 12 elements Go's pdqsort runs
    [for i := a+1; i < b; i++ { for j := i; j > a && less(j, j-1); j-- {
     swap(j, j-1) } }]; [insert_desc] is the inner loop on the reversed
    sorted prefix.  (Each variable yields at most one match per concept,
    and the default catalog has 8 concepts.) *)
Fixpoint insert_desc (x : ConceptMatch.t) (rev_prefix : list ConceptMatch.t)
  : list ConceptMatch.t :=
  match rev_prefix with
  | [] => [x]
  | y :: r =>
      if gt32 (ConceptMatch.SimilarityScore x) (ConceptMatch.SimilarityScore y)
      then y :: insert_desc x r
      else x :: y :: r
  end.

Definition sort_matches (l : list ConceptMatch.t) : list ConceptMatch.t :=
  rev (fold_left (fun acc x => insert_desc x acc) l []).

(** Group one variable's matches into the result map:
    [result[match.Concept] = append(result[match.Concept], match)]. *)
Definition group_match (r : gmap string (list ConceptMatch.t)) (cm : ConceptMatch.t)
  : gmap string (list ConceptMatch.t) :=
  <[ConceptMatch.Concept cm :=
      app (default [] (r !! ConceptMatch.Concept cm)) [cm]]> r.

Section Matcher.

(** The remote strategy: [OpenAIClient.GetEmbedding] with its response
    already converted to float32, or its error. *)
Variable remote_embed : string -> result Embedding.t.

Variable m : EmbeddingMatcher.t.

(** [GetVariableEmbedding] *)
Definition GetVariableEmbedding (variable : VariableInfo.t) : M Embedding.t :=
  fun s =>
    let name := VariableInfo.Name variable in
    match Cache s !! name with
    | Some embedding => (Ok embedding, s)
    | None =>
        if EmbeddingMatcher.Offline m then
          (Ok (getOfflineEmbedding name), log_call (OfflineCall name) s)
        else
          let s := log_call (RemoteCall name) s in
          match remote_embed name with
          | Err e => (Err e, s)
          | Ok embedding => (Ok embedding, cache_put name embedding s)
          end
    end.

(** The concepts scoring at or above the threshold, in catalog order. *)
Definition concept_matches (variable : VariableInfo.t) (varEmbedding : Embedding.t)
  : list ConceptMatch.t :=
  omap (fun concept =>
          let similarity :=
            CosineSimilarity varEmbedding (SecurityConcept.Embedding concept) in
          if ge32 similarity (EmbeddingMatcher.SimilarityThreshold m)
          then Some (ConceptMatch.mk variable (SecurityConcept.Name concept) similarity)
          else None)
       (EmbeddingMatcher.Concepts m).

(** [MatchVariable] *)
Definition MatchVariable (variable : VariableInfo.t) : M (list ConceptMatch.t) :=
  varEmbedding <- GetVariableEmbedding variable ;;
  ret (sort_matches (concept_matches variable varEmbedding)).

Fixpoint match_loop (vars : list VariableInfo.t)
    (r : gmap string (list ConceptMatch.t)) : M (gmap string (list ConceptMatch.t)) :=
  match vars with
  | [] => ret r
  | variable :: vars' =>
      matches <- MatchVariable variable ;;
      match_loop vars' (fold_left group_match matches r)
  end.

(** [MatchVariables] *)
Definition MatchVariables (vars : list VariableInfo.t)
  : M (gmap string (list ConceptMatch.t)) :=
  match_loop vars ∅.

End Matcher.

Definition var (name : string) (line : N) : VariableInfo.t :=
  VariableInfo.mk name "" "variable" "" line [].

(* ================================================================= *)
(** ** Strings (Go [strings] and [regexp] as the templates use them) *)

Definition code (c : ascii) : nat := nat_of_ascii c.

(** RE2's [\s] is [[\t\n\f\r ]]. *)
Definition is_re_space (c : ascii) : bool :=
  let n := code c in ((n =? 9) || (n =? 10) || (n =? 12) || (n =? 13) || (n =? 32))%nat.

(** [strings.TrimSpace] on ASCII: [\t \n \v \f \r] and space (non-ASCII
    Unicode spaces are not modelled). *)
Definition is_trim_space (c : ascii) : bool :=
  let n := code c in (((9 <=? n) && (n <=? 13)) || (n =? 32))%nat.

Definition is_ident_start (c : ascii) : bool :=
  let n := code c in
  (((65 <=? n) && (n <=? 90)) || ((97 <=? n) && (n <=? 122)) || (n =? 95))%nat.

Definition is_ident_char (c : ascii) : bool :=
  is_ident_start c || ((48 <=? code c) && (code c <=? 57))%nat.

Fixpoint str_drop (n : nat) (s : string) : string :=
  match n, s with
  | O, _ => s
  | S n', String _ s' => str_drop n' s'
  | S _, EmptyString => EmptyString
  end.

(** Length of the leading run of [\s] characters. *)
Fixpoint ws_run (s : string) : nat :=
  match s with
  | String c s' => if is_re_space c then S (ws_run s') else O
  | EmptyString => O
  end.

(** The leading run of characters other than newline ([.] without the
    [s] flag). *)
Fixpoint line_run (s : string) : string :=
  match s with
  | String c s' => if Ascii.eqb c "010"%char then EmptyString else String c (line_run s')
  | EmptyString => EmptyString
  end.

Fixpoint first_some {A} (f : nat -> option A) (ns : list nat) : option A :=
  match ns with
  | [] => None
  | n :: ns' => match f n with Some a => Some a | None => first_some f ns' end
  end.

(** [;\s*KEY:\s*(.+)$] matched at the start of [s], with the choices a
    backtracking matcher makes: each greedy [\s*] tries its longest run
    first and then shorter ones; [(.+)$] takes the rest of the line. *)
Definition meta_at (key : string) (s : string) : option string :=
  match s with
  | String c t =>
      if Ascii.eqb c ";"%char then
        first_some (fun i =>
          let t1 := str_drop i t in
          if String.prefix (key ++ ":") t1 then
            let t2 := str_drop (String.length key + 1) t1 in
            first_some (fun j =>
              let r := line_run (str_drop j t2) in
              if String.eqb r "" then None else Some r)
              (rev (seq 0 (S (ws_run t2))))
          else None)
          (rev (seq 0 (S (ws_run t))))
      else None
  | EmptyString => None
  end.

(** [regexp.MustCompile(`(?m)^;\s*KEY:\s*(.+)$`).FindStringSubmatch]:
    the leftmost match, tried at every line start ([^] in multi-line
    mode); [bol] says whether the current position starts a line. *)
Fixpoint meta_search (key : string) (s : string) (bol : bool) : option string :=
  match s with
  | EmptyString => None
  | String c s' =>
      match (if bol then meta_at key s else None) with
      | Some r => Some r
      | None => meta_search key s' (Ascii.eqb c "010"%char)
      end
  end.

Definition find_meta (key : string) (s : string) : option string := meta_search key s true.

(** [strings.Split(s, ",")] *)
Fixpoint split_on (sep : ascii) (s : string) : list string :=
  match s with
  | EmptyString => [EmptyString]
  | String c s' =>
      if Ascii.eqb c sep then EmptyString :: split_on sep s'
      else match split_on sep s' with
           | w :: ws => String c w :: ws
           | [] => [String c EmptyString]
           end
  end.

Fixpoint trim_left (s : string) : string :=
  match s with
  | String c s' => if is_trim_space c then trim_left s' else s
  | EmptyString => EmptyString
  end.

Definition str_rev (s : string) : string :=
  string_of_list_ascii (rev (list_ascii_of_string s)).

(** [strings.TrimSpace] *)
Definition TrimSpace (s : string) : string := str_rev (trim_left (str_rev (trim_left s))).

(** The leading run of [[a-zA-Z0-9_]]. *)
Fixpoint ident_run (s : string) : string :=
  match s with
  | String c s' => if is_ident_char c then String c (ident_run s') else EmptyString
  | EmptyString => EmptyString
  end.

(** A match of the placeholder regexp of [ParseQueryTemplate] (a [$],
    a [{], a name [[a-zA-Z_][a-zA-Z0-9_]] repeated, a [}]) at the start
    of [s]: the captured name and the length of the match. *)
Definition param_at (s : string) : option (string * nat) :=
  match s with
  | String d (String b rest) =>
      if Ascii.eqb d "$"%char && Ascii.eqb b "{"%char then
        match rest with
        | String c _ =>
            if is_ident_start c then
              let nm := ident_run rest in
              match str_drop (String.length nm) rest with
              | String e _ =>
                  if Ascii.eqb e "}"%char then Some (nm, 3 + String.length nm)
                  else None
              | EmptyString => None
              end
            else None
        | EmptyString => None
        end
      else None
  | _ => None
  end.

(** [FindAllStringSubmatch(s, -1)]: leftmost, non-overlapping matches
    from left to right; [skip] counts the characters of the previous match
    still to be passed over. *)
Fixpoint scan_params_go (s : string) (skip : nat) : list string :=
  match s with
  | EmptyString => []
  | String _ s' =>
      match skip with
      | S k => scan_params_go s' k
      | O =>
          match param_at s with
          | Some (nm, len) => nm :: scan_params_go s' (len - 1)
          | None => scan_params_go s' O
          end
      end
  end.

Definition scan_params (s : string) : list string := scan_params_go s O.

(** [s] contains a placeholder token [${identifier}]. *)
Definition has_placeholder (s : string) : bool :=
  match scan_params s with [] => false | _ => true end.

(** [strings.ReplaceAll(s, old, new)] for a non-empty [old]: the
    occurrences of [old] found from left to right, each search resuming
    after the previous occurrence, are replaced by [new]. *)
Fixpoint replace_go (old new : string) (s : string) (skip : nat) : string :=
  match s with
  | EmptyString => EmptyString
  | String c s' =>
      match skip with
      | S k => replace_go old new s' k
      | O =>
          if String.prefix old s then new ++ replace_go old new s' (String.length old - 1)
          else String c (replace_go old new s' O)
      end
  end.

(** With an empty [old], Go inserts [new] before every character and at
    the end (characters are bytes here: the query texts are ASCII). *)
Fixpoint interleave (new : string) (s : string) : string :=
  match s with
  | EmptyString => new
  | String c s' => new ++ String c (interleave new s')
  end.

(** [strings.Replace(s, old, new, -1)]: [if old == new] it returns [s];
    its shortcut for a count of zero returns [s] as [replace_go] does. *)
Definition ReplaceAll (s old new : string) : string :=
  if String.eqb old new then s
  else if String.eqb old "" then interleave new s
  else replace_go old new s O.

(* ================================================================= *)
(** ** Query templates (cmd/match.go, pkg/templates) *)

(** [type QueryTemplate struct] *)
Module QueryTemplate.
Record t := mk {
  Name : string;
  Description : string;
  Concepts : list string;
  Source : string;
  Original : string;
  Parameters : gset string }.
End QueryTemplate.

(** [type ParameterizedQuery struct]; [Template] is the template the
    pointer refers to. *)
Module ParameterizedQuery.
Record t := mk {
  Template : QueryTemplate.t;
  Parameters : gmap string string;
  ProcessedQuery : string }.
End ParameterizedQuery.

(** [ParseQueryTemplate(queryContent, source)]; its error result is
    always [nil]. *)
Definition ParseQueryTemplate (queryContent source : string) : QueryTemplate.t :=
  QueryTemplate.mk
    (default "" (find_meta "Name" queryContent))
    (default "" (find_meta "Description" queryContent))
    (match find_meta "Concepts" queryContent with
     | Some conceptsStr => map TrimSpace (split_on ","%char conceptsStr)
     | None => []
     end)
    source
    queryContent
    (list_to_set (scan_params queryContent)).

(** [fmt.Sprintf("${%s}", paramName)] *)
Definition placeholder (paramName : string) : string := "${" ++ paramName ++ "}".

Fixpoint substitute_loop (concepts : list string)
    (conceptMatches : gmap string (list ConceptMatch.t))
    (params : gmap string string) (processedQuery : string)
  : result (gmap string string * string) :=
  match concepts with
  | [] => Ok (params, processedQuery)
  | concept :: rest =>
      match conceptMatches !! concept with
      | Some (bestMatch :: _) =>
          let varName := VariableInfo.Name (ConceptMatch.Variable' bestMatch) in
          substitute_loop rest conceptMatches (<[concept := varName]> params)
            (ReplaceAll processedQuery (placeholder concept) varName)
      | _ => Err ("no matches found for required concept: " ++ concept)
      end
  end.

(** [SubstituteParameters(template, conceptMatches)] *)
Definition SubstituteParameters (template : QueryTemplate.t)
    (conceptMatches : gmap string (list ConceptMatch.t))
  : result ParameterizedQuery.t :=
  match substitute_loop (QueryTemplate.Concepts template) conceptMatches ∅
          (QueryTemplate.Original template) with
  | Ok (params, processedQuery) =>
      Ok (ParameterizedQuery.mk template params processedQuery)
  | Err e => Err e
  end.

(** [ProcessTemplatedQueries(queryTemplates, conceptMatches)], with the
    map given by the sequence its [range] loop visits.  The warning
    printed for a skipped template is not modelled. *)
Definition ProcessTemplatedQueries (queryTemplates : list (string * QueryTemplate.t))
    (conceptMatches : gmap string (list ConceptMatch.t)) : list ParameterizedQuery.t :=
  omap (fun '(_, template) =>
          match QueryTemplate.Concepts template with
          | [] => None
          | _ => match SubstituteParameters template conceptMatches with
                 | Ok paramQuery => Some paramQuery
                 | Err _ => None
                 end
          end)
       queryTemplates.

Definition nl : string := String "010"%char EmptyString.
Definition qt : string := String "034"%char EmptyString.

(** queries/templated/missing_reentrancy_guard.scm *)
Definition missing_reentrancy_guard_scm : string :=
  "; Name: Missing Reentrancy Guard" ++ nl ++
  "; Description: External functions that should check reentrancy guard but don't" ++ nl ++
  "; Concepts: locked" ++ nl ++
  nl ++
  "(function_item" ++ nl ++
  "  (function" ++ nl ++
  "    name: (identifier) @func_name" ++ nl ++
  "    (#match? @func_name " ++ qt ++ "^(deposit|withdraw|flashLoan|borrow)$" ++ qt ++ "))" ++ nl ++
  "  body: (block) @func_body" ++ nl ++
  "  (#not-match? @func_body " ++ qt ++ "${locked}" ++ qt ++ "))".

(** Characters and tokens the substitution properties talk about. *)
Fixpoint has_dollar (s : string) : bool :=
  match s with
  | String c s' => Ascii.eqb c "$"%char || has_dollar s'
  | EmptyString => false
  end.

(** [s] contains the two characters [${], which open every match of the
    placeholder regexp. *)
Fixpoint has_open (s : string) : bool :=
  match s with
  | String c s' =>
      (Ascii.eqb c "$"%char &&
       match s' with String b _ => Ascii.eqb b "{"%char | EmptyString => false end)
      || has_open s'
  | EmptyString => false
  end.

(** A name in the placeholder grammar [[a-zA-Z_][a-zA-Z0-9_]] repeated. *)
Definition is_ident (c : string) : bool :=
  match c with
  | String x r => is_ident_start x && forallb is_ident_char (list_ascii_of_string r)
  | EmptyString => false
  end.

Inductive str_suffix : string -> string -> Prop :=
| suffix_refl s : str_suffix s s
| suffix_cons t c s : str_suffix t s -> str_suffix t (String c s).

(** Every [${] of [s] starts a placeholder token [${c}] whose name [c] is
    an identifier listed in [cs]. *)
Definition tokens_covered (cs : list string) (s : string) : Prop :=
  forall t, str_suffix t s -> (exists u, t = String "$"%char (String "{"%char u)) ->
  exists c, c ∈ cs /\ is_ident c = true /\ String.prefix (placeholder c) t = true.

Fixpoint tokens_covered_b (cs : list string) (s : string) : bool :=
  match s with
  | EmptyString => true
  | String x s' =>
      (if Ascii.eqb x "$"%char &&
          match s' with String b _ => Ascii.eqb b "{"%char | EmptyString => false end
       then existsb (fun c => is_ident c && String.prefix (placeholder c) s) cs
       else true) && tokens_covered_b cs s'
  end.

Definition lock_match : ConceptMatch.t :=
  ConceptMatch.mk (var "lock" 3) "locked" (ratio32 9 10).

Definition locked_matches : gmap string (list ConceptMatch.t) :=
  {[ "locked" := [lock_match] ]}.

(** A template that requires [locked] but also mentions [${active}]. *)
Definition two_placeholder_template : QueryTemplate.t :=
  ParseQueryTemplate
    ("; Name: Two Placeholders" ++ nl ++ "; Concepts: locked" ++ nl ++
     "(#eq? @a ${locked}) (#eq? @b ${active})")
    "templated/two_placeholders.scm".

Definition reentrancy_template : QueryTemplate.t :=
  ParseQueryTemplate missing_reentrancy_guard_scm "templated/missing_reentrancy_guard.scm".

(* ================================================================= *)
(** ** Running queries (cmd/analyze.go) *)

(** [type QueryResult struct] *)
Module QueryResult.
Record t := mk {
  QueryName : string;
  QueryFile : string;
  Description : string;
  LineNumber : N;      (* uint32 *)
  Code : string }.
End QueryResult.

(** A capture reported by the structural query executor: the start row
    of its node and the node's source text. *)
Record Capture := mkCapture { cap_row : N; cap_text : string }.

(** The external query executor on the parsed file of the run: [None]
    when [tree_sitter.NewQuery] rejects the pattern, otherwise the
    matches in cursor order, each with its captures. *)
Definition Executor := string -> option (list (list Capture)).

(** [uint32(row) + 1], wrapping at 2^32. *)
Definition line_of_row (row : N) : N := ((row mod 2 ^ 32) + 1) mod 2 ^ 32.

(** [strings.Join(lines, sep)] *)
Fixpoint join_with (sep : string) (l : list string) : string :=
  match l with
  | [] => EmptyString
  | [x] => x
  | x :: l' => x ++ sep ++ join_with sep l'
  end.

(** [strings.HasPrefix(s, ";")] on a trimmed line. *)
Definition starts_with_semicolon (s : string) : bool :=
  match s with String c _ => Ascii.eqb c ";"%char | EmptyString => false end.

(** [extractQueryPattern]: drop blank lines and comment lines. *)
Definition extractQueryPattern (queryContent : string) : string :=
  join_with nl
    (filter (fun line => let trimmed := TrimSpace line in
                         negb (String.eqb trimmed "" || starts_with_semicolon trimmed))
       (split_on "010"%char queryContent)).

(** [ExtractQueryMetadata]: (name, description). *)
Definition ExtractQueryMetadata (queryContent : string) : string * string :=
  (default "" (find_meta "Name" queryContent),
   default "" (find_meta "Description" queryContent)).

Definition slash : ascii := "/"%char.

Fixpoint drop_while_slash (l : list ascii) : list ascii :=
  match l with
  | c :: l' => if Ascii.eqb c slash then drop_while_slash l' else l
  | [] => []
  end.

Fixpoint take_until_slash (l : list ascii) : list ascii :=
  match l with
  | c :: l' => if Ascii.eqb c slash then [] else c :: take_until_slash l'
  | [] => []
  end.

(** [filepath.Base] (Unix): the last element after trailing slashes are
    removed; ["."] for the empty path, ["/"] for a path of slashes. *)
Definition Base (path : string) : string :=
  match list_ascii_of_string path with
  | [] => "."
  | l =>
      match drop_while_slash (rev l) with
      | [] => "/"
      | r => string_of_list_ascii (rev (take_until_slash r))
      end
  end.

Fixpoint ext_rev (r acc : list ascii) : option (list ascii) :=
  match r with
  | [] => None
  | c :: r' =>
      if Ascii.eqb c slash then None
      else if Ascii.eqb c "."%char then Some (c :: acc)
      else ext_rev r' (c :: acc)
  end.

(** [filepath.Ext]: the suffix from the last dot of the last element. *)
Definition Ext (path : string) : string :=
  match ext_rev (rev (list_ascii_of_string path)) [] with
  | Some l => string_of_list_ascii l
  | None => EmptyString
  end.

(** [strings.TrimSuffix] *)
Definition TrimSuffix (s suffix : string) : string :=
  let n := String.length s in
  let k := String.length suffix in
  if (k <=? n)%nat && String.eqb (String.substring (n - k) k s) suffix
  then String.substring 0 (n - k) s
  else s.

(** What [RunQueries] produces: the findings, and the patterns it ran
    against the tree (those [tree_sitter.NewQuery] accepted). *)
Record RunOutput := mkRun { results : list QueryResult.t; executed : list string }.

Definition run_one (exec : Executor) (queryFile queryContent : string) : RunOutput :=
  let '(queryName0, description) := ExtractQueryMetadata queryContent in
  let queryName :=
    if String.eqb queryName0 "" then TrimSuffix (Base queryFile) (Ext queryFile)
    else queryName0 in
  let queryPattern := extractQueryPattern queryContent in
  match exec queryPattern with
  | None => mkRun [] []
  | Some matches =>
      mkRun
        (omap (fun captures =>
                 match captures with
                 | capture :: _ =>
                     Some (QueryResult.mk queryName queryFile description
                             (line_of_row (cap_row capture)) (cap_text capture))
                 | [] => None
                 end) matches)
        [queryPattern]
  end.

Definition run_app (a b : RunOutput) : RunOutput :=
  mkRun (app (results a) (results b)) (app (executed a) (executed b)).

(** [RunQueries(source, tree, queries)], with the map given by the
    sequence its [range] loop visits; its error result is always [nil]. *)
Fixpoint RunQueries (exec : Executor) (queries : list (string * string)) : RunOutput :=
  match queries with
  | [] => mkRun [] []
  | (queryFile, queryContent) :: rest =>
      run_app (run_one exec queryFile queryContent) (RunQueries exec rest)
  end.

(* ================================================================= *)
(** ** The analyze-smart command (cmd/analyze_smart.go) *)

(** One visit of a Go map by [range]: some ordering of its bindings. *)
Definition iterates {A} (m : gmap string A) (l : list (string * A)) : Prop :=
  l ≡ₚ map_to_list m.

(** [queryTemplates[source] = template] for every loaded query; the map
    does not depend on the order of the loop. *)
Definition query_templates (queries : gmap string string) : gmap string QueryTemplate.t :=
  map_imap (fun source content => Some (ParseQueryTemplate content source)) queries.

Inductive Outcome :=
| Fatal (msg : string)
| NoQueries
| Report (out : RunOutput).

(** Run one parameterized query and tag its findings. *)
Definition run_parameterized (exec : Executor) (paramQuery : ParameterizedQuery.t) : RunOutput :=
  let t := ParameterizedQuery.Template paramQuery in
  let r := RunQueries exec [(QueryTemplate.Source t, ParameterizedQuery.ProcessedQuery paramQuery)] in
  mkRun (map (fun res => QueryResult.mk (QueryTemplate.Name t ++ " (parametrized)")
                  (QueryResult.QueryFile res) (QueryResult.Description res)
                  (QueryResult.LineNumber res) (QueryResult.Code res)) (results r))
        (executed r).

Fixpoint run_all_parameterized (exec : Executor) (pqs : list ParameterizedQuery.t) : RunOutput :=
  match pqs with
  | [] => mkRun [] []
  | pq :: rest => run_app (run_parameterized exec pq) (run_all_parameterized exec rest)
  end.

(** [analyzeSmartMain] from the matching step on: the concepts are
    loaded, the file parsed and its variables extracted; [exec] runs
    patterns on the parsed file; [queryOrder] and [templateOrder] are the
    visits of the [queries] and [queryTemplates] maps. *)
Definition analyzeSmart (remote_embed : string -> result Embedding.t)
    (securityConcepts : list SecurityConcept.t) (offline : bool)
    (vars : list VariableInfo.t) (queries : gmap string string) (exec : Executor)
    (queryOrder : list (string * string))
    (templateOrder : list (string * QueryTemplate.t)) : Outcome :=
  let matcher := NewEmbeddingMatcher securityConcepts offline in
  match fst (MatchVariables remote_embed matcher vars fresh_state) with
  | Err e => Fatal ("Error matching variables: " ++ e)
  | Ok conceptMatches =>
      if decide (queries = ∅) then NoQueries
      else
        let parameterizedQueries := ProcessTemplatedQueries templateOrder conceptMatches in
        let standardResults := RunQueries exec queryOrder in
        let templatedResults := run_all_parameterized exec parameterizedQueries in
        Report (run_app standardResults templatedResults)
  end.

Definition reentrancy_source : string := "templated/missing_reentrancy_guard.scm".

(* ================================================================= *)
(** ** The concept loader (pkg/concepts/loader.go, cmd/embeddings.go) *)

(** The two copies of [LoadSecurityConcepts] are the same code. *)

(** [type EmbeddingEntry struct] *)
Module EmbeddingEntry.
Record t := mk { ConceptName : string; Embedding : Embedding.t }.
End EmbeddingEntry.

Inductive FsEntry :=
| FDir
| FFile (contents : string).

(** The file system the loader sees: path to directory or file. *)
Abbreviation Filesystem := (gmap string FsEntry).

(** [filepath.Join(dir, name)] for a clean [dir] and a plain [name]. *)
Definition join (dir name : string) : string := dir ++ "/" ++ name.

(** [os.Stat(p)] succeeds. *)
Definition stat (fs : Filesystem) (p : string) : bool :=
  match fs !! p with Some _ => true | None => false end.

(** [os.ReadFile(p)] *)
Definition ReadFile (fs : Filesystem) (p : string) : result string :=
  match fs !! p with
  | Some (FFile c) => Ok c
  | Some FDir => Err "is a directory"
  | None => Err "no such file or directory"
  end.

Definition default_concept (name description : string) (synonyms : list string)
  : SecurityConcept.t :=
  SecurityConcept.mk name description synonyms (Embedding.mk []).

(** [DefaultSecurityConcepts] *)
Definition DefaultSecurityConcepts : list SecurityConcept.t :=
  [default_concept "active" "Concept representing whether a market is active/initialized"
     ["enabled"; "live"; "activated"; "initialized"; "ready"];
   default_concept "locked" "Concept representing a reentrancy guard or mutex"
     ["reentrancy_guard"; "mutex"; "guard"; "semaphore"];
   default_concept "grace_period" "Concept representing a waiting period or timelock"
     ["timelock"; "delay"; "cooldown"; "waiting_period"];
   default_concept "admin" "Concept representing an administrative role or owner"
     ["owner"; "administrator"; "authority"; "governor"];
   default_concept "min_deposit" "Concept representing a minimum deposit or liquidity threshold"
     ["minimum_deposit"; "min_liquidity"; "threshold"; "minimum_amount"];
   default_concept "bounds_check" "Concept representing bounds checking or validations"
     ["validation"; "assert"; "check"; "limit"; "cap"];
   default_concept "accumulator" "Concept representing an accumulator or counter"
     ["counter"; "index"; "tally"; "tracker"];
   default_concept "donation_cap" "Concept representing a cap on donations or contributions"
     ["cap"; "limit"; "maximum"; "ceiling"]].

Definition with_embedding (e : Embedding.t) (c : SecurityConcept.t) : SecurityConcept.t :=
  SecurityConcept.mk (SecurityConcept.Name c) (SecurityConcept.Description c)
    (SecurityConcept.Synonyms c) e.

(** [conceptsMap[c.Name] = &concepts[i]]: a later concept of the same
    name overwrites an earlier one. *)
Fixpoint concepts_index (l : list SecurityConcept.t) (i : nat) (acc : gmap string nat)
  : gmap string nat :=
  match l with
  | [] => acc
  | c :: l' => concepts_index l' (S i) (<[SecurityConcept.Name c := i]> acc)
  end.

(** [concept.Embedding = entry.Embedding] through the map's pointer, or a
    warning for an unknown concept. *)
Definition merge_entry (idx : gmap string nat) (concepts : list SecurityConcept.t)
    (entry : EmbeddingEntry.t) : list SecurityConcept.t :=
  match idx !! EmbeddingEntry.ConceptName entry with
  | Some i => alter (with_embedding (EmbeddingEntry.Embedding entry)) i concepts
  | None => concepts
  end.

Section Loader.

(** [toml.Unmarshal] into the three configuration shapes; [None] when the
    content is malformed. *)
Variable parse_concepts : string -> option (list SecurityConcept.t).
Variable parse_embeddings : string -> option (list EmbeddingEntry.t).
Variable parse_embedding : string -> option Embedding.t.
(** [os.Executable()]'s directory, when it is known. *)
Variable execDir : option string.
Variable fs : Filesystem.

(** [loadLegacySecurityConcepts] *)
Definition loadLegacySecurityConcepts (path : string) : result (list SecurityConcept.t) :=
  match ReadFile fs path with
  | Err e => Err ("error reading security concepts TOML: " ++ e)
  | Ok conceptsData =>
      match parse_concepts conceptsData with
      | None => Err "error parsing security concepts TOML"
      | Some concepts => Ok concepts
      end
  end.

(** One turn of the per-concept loop of [loadLegacyMetadataFormat]: the
    name is read from the loop's copy of the concept. *)
Definition legacy_embedding_step (subdir : string) (concepts : list SecurityConcept.t)
    (ic : nat * SecurityConcept.t) : list SecurityConcept.t :=
  let '(i, concept) := ic in
  let embeddingFile := join subdir (SecurityConcept.Name concept ++ ".toml") in
  if negb (stat fs embeddingFile) then concepts
  else match ReadFile fs embeddingFile with
       | Err _ => concepts
       | Ok embeddingData =>
           match parse_embedding embeddingData with
           | None => concepts
           | Some e => alter (with_embedding e) i concepts
           end
       end.

(** [loadLegacyMetadataFormat] *)
Definition loadLegacyMetadataFormat (embeddingsDir : string) : result (list SecurityConcept.t) :=
  let metadataFile := join embeddingsDir "concepts_metadata.toml" in
  match ReadFile fs metadataFile with
  | Err e => Err ("error reading concept metadata: " ++ e)
  | Ok metadataData =>
      match parse_concepts metadataData with
      | None => Err "error parsing concept metadata"
      | Some concepts =>
          let embeddingsSubdir := join embeddingsDir "embeddings" in
          if stat fs embeddingsSubdir then
            Ok (fold_left (legacy_embedding_step embeddingsSubdir) (imap pair concepts) concepts)
          else Ok concepts
      end
  end.

(** The split-file layout, once both of its files exist. *)
Definition loadSplitFormat (conceptsFile embeddingsFile : string) : result (list SecurityConcept.t) :=
  match ReadFile fs conceptsFile with
  | Err e => Err ("error reading concepts file: " ++ e)
  | Ok conceptsData =>
      match parse_concepts conceptsData with
      | None => Err "error parsing concepts file"
      | Some concepts =>
          let idx := concepts_index concepts 0 ∅ in
          match ReadFile fs embeddingsFile with
          | Err _ => Ok concepts
          | Ok embeddingsData =>
              match parse_embeddings embeddingsData with
              | None => Ok concepts
              | Some entries => Ok (fold_left (merge_entry idx) entries concepts)
              end
          end
      end
  end.

Definition embedDirs : list string :=
  "embeddings" :: match execDir with Some d => [join d "embeddings"] | None => [] end.

(** [LoadSecurityConcepts] *)
Definition LoadSecurityConcepts : result (list SecurityConcept.t) :=
  match list_find (fun d => stat fs d = true) embedDirs with
  | None => Ok DefaultSecurityConcepts
  | Some (_, embeddingsDir) =>
      let conceptsFile := join embeddingsDir "concepts.toml" in
      let embeddingsFile := join embeddingsDir "embeddings.toml" in
      if negb (stat fs conceptsFile) || negb (stat fs embeddingsFile) then
        let legacyFile := join embeddingsDir "security_concepts.toml" in
        if stat fs legacyFile then loadLegacySecurityConcepts legacyFile
        else
          let legacyMetadataFile := join embeddingsDir "concepts_metadata.toml" in
          if stat fs legacyMetadataFile then loadLegacyMetadataFormat embeddingsDir
          else Ok DefaultSecurityConcepts
      else loadSplitFormat conceptsFile embeddingsFile
  end.

End Loader.

(** The layers of the fallback chain that read a file. *)
Inductive Layer :=
| SplitLayer
| LegacyFileLayer
| LegacyMetadataLayer.

(** The layer located as the layered description has it: the first
    existing embeddings directory, then the split layout when both of its
    files exist, else [security_concepts.toml], else
    [concepts_metadata.toml]; none when the defaults are used. *)
Definition located_layer (execDir : option string) (fs : Filesystem) : option (string * Layer) :=
  match list_find (fun d => stat fs d = true) (embedDirs execDir) with
  | None => None
  | Some (_, d) =>
      if stat fs (join d "concepts.toml") && stat fs (join d "embeddings.toml")
      then Some (d, SplitLayer)
      else if stat fs (join d "security_concepts.toml") then Some (d, LegacyFileLayer)
      else if stat fs (join d "concepts_metadata.toml") then Some (d, LegacyMetadataLayer)
      else None
  end.

(** The concept file of a layer located in the directory [d]. *)
Definition layer_file (d : string) (l : Layer) : string :=
  match l with
  | SplitLayer => join d "concepts.toml"
  | LegacyFileLayer => join d "security_concepts.toml"
  | LegacyMetadataLayer => join d "concepts_metadata.toml"
  end.

(** The vector [e] of the concept [c] comes from the layer's vector
    files: an entry named after [c] of an [embeddings.toml] that was read
    and parsed (split layout), or [embeddings/<name>.toml] read and
    parsed (legacy metadata layout); the single legacy file has none. *)
Definition vector_from (parse_embeddings : string -> option (list EmbeddingEntry.t))
    (parse_embedding : string -> option Embedding.t) (fs : Filesystem)
    (d : string) (l : Layer) (c : SecurityConcept.t) (e : Embedding.t) : Prop :=
  match l with
  | SplitLayer =>
      exists data entries entry,
        ReadFile fs (join d "embeddings.toml") = Ok data /\ parse_embeddings data = Some entries /\
        entry ∈ entries /\ EmbeddingEntry.ConceptName entry = SecurityConcept.Name c /\
        e = EmbeddingEntry.Embedding entry
  | LegacyFileLayer => False
  | LegacyMetadataLayer =>
      exists data,
        ReadFile fs (join (join d "embeddings") (SecurityConcept.Name c ++ ".toml")) = Ok data /\
        parse_embedding data = Some e
  end.

(** The file cannot be read, or its content does not parse. *)
Definition primary_malformed (parse_concepts : string -> option (list SecurityConcept.t))
    (fs : Filesystem) (p : string) : bool :=
  match ReadFile fs p with
  | Err _ => true
  | Ok data => match parse_concepts data with None => true | Some _ => false end
  end.

(** A parser accepting exactly the content [ok]. *)
Definition parse_ok_concepts (data : string) : option (list SecurityConcept.t) :=
  if String.eqb data "ok" then Some [default_concept "locked" "guard" []] else None.

(** A split layout whose [embeddings.toml] is malformed. *)
Definition split_bad_embeddings : Filesystem :=
  {[ "embeddings" := FDir;
     "embeddings/concepts.toml" := FFile "ok";
     "embeddings/embeddings.toml" := FFile "[[embeddings" ]}.

(* ================================================================= *)
(** ** Identifier extraction (variables/variables.go) *)

Definition identifier_query : string := "(identifier) @id".

Definition variable_of_capture (c : Capture) : VariableInfo.t :=
  VariableInfo.mk (cap_text c) "" "variable" "" (line_of_row (cap_row c)) [].

(** The capture loop with its [seen] set. *)
Fixpoint extract_captures (caps : list Capture) (seen : gset string) : list VariableInfo.t :=
  match caps with
  | [] => []
  | c :: rest =>
      if decide (cap_text c ∈ seen) then extract_captures rest seen
      else variable_of_capture c :: extract_captures rest ({[cap_text c]} ∪ seen)
  end.

(** [ExtractVariables(source, tree)]: [exec] runs the identifier query on
    the parsed file. *)
Definition ExtractVariables (exec : Executor) : result (list VariableInfo.t) :=
  match exec identifier_query with
  | None => Err "error compiling query"
  | Some matches => Ok (extract_captures (concat matches) ∅)
  end.

(* ================================================================= *)
(** ** Inputs of the properties *)

Definition is_zero32 (x : float32) : Prop := exists s, x = S754_zero s.

Definition concept_active_offline : SecurityConcept.t :=
  SecurityConcept.mk "active" "Concept representing whether a market is active/initialized"
    [] (getOfflineEmbedding "is_active").

Definition active_template : QueryTemplate.t :=
  ParseQueryTemplate
    ("; Name: Missing Market Activation Check" ++ nl ++ "; Concepts: active" ++ nl ++
     "(#not-match? @func_body " ++ qt ++ "${active}" ++ qt ++ ")")
    "templated/missing_activation.scm".

Definition query_a : string := "; Name: A" ++ nl ++ "(identifier) @a".
Definition query_b : string := "; Name: B" ++ nl ++ "(number) @b".

Definition two_queries : gmap string string :=
  {[ "a.scm" := query_a; "b.scm" := query_b ]}.

(** Every pattern matches once, at row 0, with the pattern as its text. *)
Definition echo_exec : Executor := fun pattern => Some [[mkCapture 0 pattern]].

(** The order [sort.Slice] establishes: no match scores strictly higher
    than the one before it. *)
Definition score_desc (x y : ConceptMatch.t) : Prop :=
  gt32 (ConceptMatch.SimilarityScore y) (ConceptMatch.SimilarityScore x) = false.

(** Every group of a matching result is non-empty, and each of its
    matches is for the group's concept and satisfies [P]. *)
Definition groups_ok (P : ConceptMatch.t -> Prop)
    (r : gmap string (list ConceptMatch.t)) : Prop :=
  forall c ms, r !! c = Some ms ->
    ms <> [] /\ forall x, x ∈ ms -> ConceptMatch.Concept x = c /\ P x.

(** [strings.ContainsRune(s, c)] *)
Fixpoint has_char (c : ascii) (s : string) : bool :=
  match s with
  | String x s' => Ascii.eqb x c || has_char c s'
  | EmptyString => false
  end.

(** The metadata of a concept: everything but its vector. *)
Definition concept_metadata (c : SecurityConcept.t) : string * string * list string :=
  (SecurityConcept.Name c, SecurityConcept.Description c, SecurityConcept.Synonyms c).

(* ================================================================= *)
(** What the merge of [embeddings.toml] keeps: the metadata, and for each
    concept either its own vector or that of an entry named after it. *)
Definition merged (concepts : list SecurityConcept.t)
    (entries : list EmbeddingEntry.t) (l : list SecurityConcept.t) : Prop :=
  map concept_metadata l = map concept_metadata concepts /\
  forall i c', l !! i = Some c' -> exists c, concepts !! i = Some c /\
    (SecurityConcept.Embedding c' = SecurityConcept.Embedding c \/
     exists entry, entry ∈ entries /\
       EmbeddingEntry.ConceptName entry = SecurityConcept.Name c /\
       SecurityConcept.Embedding c' = EmbeddingEntry.Embedding entry).

(** What the per-concept loop keeps: the metadata, and for each concept
    either its own vector or the one parsed from its own file. *)
Definition legacy_merged (concepts : list SecurityConcept.t)
    (parse_embedding : string -> option Embedding.t) (fs : Filesystem) (subdir : string)
    (l : list SecurityConcept.t) : Prop :=
  map concept_metadata l = map concept_metadata concepts /\
  forall i c', l !! i = Some c' -> exists c, concepts !! i = Some c /\
    (SecurityConcept.Embedding c' = SecurityConcept.Embedding c \/
     exists data e, ReadFile fs (join subdir (SecurityConcept.Name c ++ ".toml")) = Ok data /\
       parse_embedding data = Some e /\ SecurityConcept.Embedding c' = e).

(** * Properties *)

(* ----------------------------------------------------------------- *)
(** ** The definitions evaluated *)

Example cosine_parallel :
  CosineSimilarity (Embedding.mk [of_Z32 4; of_Z32 3; zero32])
                   (Embedding.mk [of_Z32 8; of_Z32 6; zero32]) = of_Z32 1.
Proof. vm_compute. reflexivity. Qed.

Example replace_all_ex : ReplaceAll "a${x}b${x}" "${x}" "v" = "avbv".
Proof. reflexivity. Qed.

Example scan_params_ex : scan_params "(#eq? ${a} ${9} ${b_1}}" = ["a"; "b_1"].
Proof. reflexivity. Qed.

Example parse_reentrancy_template :
  let t := ParseQueryTemplate missing_reentrancy_guard_scm "templated/missing_reentrancy_guard.scm" in
  QueryTemplate.Name t = "Missing Reentrancy Guard" /\
  QueryTemplate.Concepts t = ["locked"] /\
  elements (QueryTemplate.Parameters t) = ["locked"].
Proof. vm_compute. repeat split. Qed.

Example reentrancy_raw_pattern :
  has_placeholder (extractQueryPattern missing_reentrancy_guard_scm) = true /\
  ExtractQueryMetadata missing_reentrancy_guard_scm =
    ("Missing Reentrancy Guard",
     "External functions that should check reentrancy guard but don't").
Proof. vm_compute. split; reflexivity. Qed.

Example base_ext_ex :
  TrimSuffix (Base "race_conditions/missing.scm") (Ext "race_conditions/missing.scm") = "missing".
Proof. reflexivity. Qed.


(* ----------------------------------------------------------------- *)
(** ** The similarity score *)

Lemma mul32_zero_self (x : float32) : is_zero32 x -> mul32 x x = zero32.
Proof. intros [s ->]. destruct s; reflexivity. Qed.

Lemma cosine_loop_normA_zero (a b : list float32) (dot nb : float32) :
  Forall is_zero32 a ->
  snd (fst (cosine_loop a b dot zero32 nb)) = zero32.
Proof.
  revert b dot nb. induction a as [|x a IH]; intros b dot nb Ha; destruct b as [|y b];
    simpl; try reflexivity.
  inversion Ha as [|? ? Hx Ha']; subst.
  rewrite (mul32_zero_self x Hx). apply IH. exact Ha'.
Qed.

Lemma cosine_loop_normB_zero (a b : list float32) (dot na : float32) :
  Forall is_zero32 b ->
  snd (cosine_loop a b dot na zero32) = zero32.
Proof.
  revert b dot na. induction a as [|x a IH]; intros b dot na Hb; destruct b as [|y b];
    simpl; try reflexivity.
  inversion Hb as [|? ? Hy Hb']; subst.
  rewrite (mul32_zero_self y Hy). apply IH. exact Hb'.
Qed.

Lemma sqrt_norm_zero : to32 (sqrt64 (to64 zero32)) = zero32.
Proof. reflexivity. Qed.

(** C7: the score is exactly [0] when either vector is empty or the two
    vectors have different lengths. *)
Theorem CosineSimilarity_degenerate (a b : Embedding.t) :
  Embedding.Vector a = [] \/ Embedding.Vector b = [] \/
  length (Embedding.Vector a) <> length (Embedding.Vector b) ->
  CosineSimilarity a b = zero32.
Proof.
  intros H. unfold CosineSimilarity.
  destruct (length (Embedding.Vector a) =? 0)%nat eqn:Ea; [reflexivity|].
  destruct (length (Embedding.Vector b) =? 0)%nat eqn:Eb; [reflexivity|].
  simpl. destruct H as [H|[H|H]].
  - rewrite H in Ea. discriminate.
  - rewrite H in Eb. discriminate.
  - apply Nat.eqb_neq in H. rewrite H. reflexivity.
Qed.

Lemma CosineSimilarity_degenerate_witness :
  (Embedding.Vector (Embedding.mk []) = [] \/
   Embedding.Vector (Embedding.mk [of_Z32 1]) = [] \/
   length (Embedding.Vector (Embedding.mk [])) <>
     length (Embedding.Vector (Embedding.mk [of_Z32 1]))) /\
  CosineSimilarity (Embedding.mk []) (Embedding.mk [of_Z32 1]) = zero32.
Proof.
  split.
  - left. reflexivity.
  - apply CosineSimilarity_degenerate. left. reflexivity.
Defined.

Lemma CosineSimilarity_zero_magnitude (a b : Embedding.t) :
  length (Embedding.Vector a) = length (Embedding.Vector b) ->
  Forall is_zero32 (Embedding.Vector a) \/ Forall is_zero32 (Embedding.Vector b) ->
  CosineSimilarity a b = zero32.
Proof.
  intros Hlen Hz. unfold CosineSimilarity.
  destruct (_ || _); [reflexivity|].
  rewrite Hlen, Nat.eqb_refl. simpl.
  destruct (cosine_loop (Embedding.Vector a) (Embedding.Vector b) zero32 zero32 zero32)
    as [[dot na] nb] eqn:E.
  destruct Hz as [Hz|Hz].
  - pose proof (cosine_loop_normA_zero (Embedding.Vector a) (Embedding.Vector b)
                  zero32 zero32 Hz) as Hn.
    rewrite E in Hn. simpl in Hn. subst na. reflexivity.
  - pose proof (cosine_loop_normB_zero (Embedding.Vector a) (Embedding.Vector b)
                  zero32 zero32 Hz) as Hn.
    rewrite E in Hn. simpl in Hn. subst nb.
    rewrite sqrt_norm_zero. unfold eq32 at 2. simpl.
    rewrite orb_true_r. reflexivity.
Qed.

Lemma offline_empty_is_zero : Forall is_zero32 (Embedding.Vector (getOfflineEmbedding "")).
Proof. repeat constructor; exists false; reflexivity. Qed.

(** C10: for vectors of equal non-zero length where either one has zero
    magnitude (all components zero), the score is [0]: the division is
    never reached.  The offline embedding of the empty name is such a
    vector, and scores [0] against any vector. *)
Theorem CosineSimilarity_zero_vector_guarded :
  (forall a b : Embedding.t,
     length (Embedding.Vector a) = length (Embedding.Vector b) ->
     Embedding.Vector a <> [] ->
     Forall is_zero32 (Embedding.Vector a) \/ Forall is_zero32 (Embedding.Vector b) ->
     CosineSimilarity a b = zero32) /\
  (forall v : Embedding.t,
     CosineSimilarity (getOfflineEmbedding "") v = zero32 /\
     CosineSimilarity v (getOfflineEmbedding "") = zero32).
Proof.
  split.
  - intros a b Hlen _ Hz. apply CosineSimilarity_zero_magnitude; assumption.
  - intros v.
    destruct (decide (length (Embedding.Vector v) = 3%nat)) as [H3|H3].
    + split; apply CosineSimilarity_zero_magnitude.
      * rewrite H3. reflexivity.
      * left. apply offline_empty_is_zero.
      * rewrite H3. reflexivity.
      * right. apply offline_empty_is_zero.
    + split; apply CosineSimilarity_degenerate; right; right.
      * simpl. intros H. apply H3. symmetry. exact H.
      * simpl. exact H3.
Qed.

Lemma CosineSimilarity_zero_vector_guarded_witness :
  CosineSimilarity (Embedding.mk [zero32; zero32]) (Embedding.mk [of_Z32 3; S754_nan])
    = zero32.
Proof.
  apply (proj1 CosineSimilarity_zero_vector_guarded).
  - reflexivity.
  - discriminate.
  - left. repeat constructor; exists false; reflexivity.
Defined.

(* ----------------------------------------------------------------- *)
(** ** The embedding cache *)

(** The remote path stores what it fetched: a second call with the same
    name returns the same vector and invokes no strategy. *)
Lemma GetVariableEmbedding_remote_cached remote_embed (m : EmbeddingMatcher.t)
    (v : VariableInfo.t) (s s' : MatcherState) (e : Embedding.t) :
  EmbeddingMatcher.Offline m = false ->
  GetVariableEmbedding remote_embed m v s = (Ok e, s') ->
  GetVariableEmbedding remote_embed m v s' = (Ok e, s').
Proof.
  intros Hoff. unfold GetVariableEmbedding. rewrite Hoff.
  destruct (Cache s !! VariableInfo.Name v) as [e0|] eqn:Hc.
  - intros [= <- <-]. rewrite Hc. reflexivity.
  - destruct (remote_embed (VariableInfo.Name v)) as [e1|err]; [|discriminate].
    intros [= <- <-]. simpl. rewrite lookup_insert_eq. reflexivity.
Qed.

(** The offline path never writes the cache. *)
Lemma GetVariableEmbedding_offline_uncached remote_embed (m : EmbeddingMatcher.t)
    (v : VariableInfo.t) (s : MatcherState) :
  EmbeddingMatcher.Offline m = true ->
  Cache s !! VariableInfo.Name v = None ->
  GetVariableEmbedding remote_embed m v s =
    (Ok (getOfflineEmbedding (VariableInfo.Name v)),
     log_call (OfflineCall (VariableInfo.Name v)) s).
Proof.
  intros Hoff Hc. unfold GetVariableEmbedding. rewrite Hc, Hoff. reflexivity.
Qed.

(** C4 (code bug): with the offline strategy, two calls for [is_active]
    in one run return the same vector, but each call runs the offline
    computation again and the cache stays empty. *)
Theorem offline_embedding_recomputed (remote_embed : string -> result Embedding.t) :
  let m := NewEmbeddingMatcher [] true in
  let v := var "is_active" 10 in
  let '(r1, s1) := GetVariableEmbedding remote_embed m v fresh_state in
  let '(r2, s2) := GetVariableEmbedding remote_embed m v s1 in
  r1 = r2 /\
  Calls s2 = [OfflineCall "is_active"; OfflineCall "is_active"] /\
  Cache s2 = ∅.
Proof. simpl. repeat split. Qed.

(* ----------------------------------------------------------------- *)
(** ** Grouping by concept and binding *)

(** C2 (code bug): offline matching of [lock] (line 3) and [is_active]
    (line 5) against [active].  Both pass the threshold and [is_active]
    scores strictly higher, yet the concept's group lists [lock] first and
    [SubstituteParameters] binds [lock]. *)
Theorem best_match_not_bound (remote_embed : string -> result Embedding.t) :
  match fst (MatchVariables remote_embed (NewEmbeddingMatcher [concept_active_offline] true)
               [var "lock" 3; var "is_active" 5] fresh_state) with
  | Ok cm =>
      match cm !! "active" with
      | Some [m1; m2] =>
          VariableInfo.Name (ConceptMatch.Variable' m1) = "lock" /\
          VariableInfo.Name (ConceptMatch.Variable' m2) = "is_active" /\
          gt32 (ConceptMatch.SimilarityScore m2) (ConceptMatch.SimilarityScore m1) = true /\
          match SubstituteParameters active_template cm with
          | Ok pq => ParameterizedQuery.Parameters pq !! "active" = Some "lock"
          | Err _ => False
          end
      | _ => False
      end
  | Err _ => False
  end.
Proof. vm_compute. repeat split. Qed.

(* ----------------------------------------------------------------- *)
(** ** Substitution of placeholders *)

Lemma string_app_cons (x : ascii) (a b : string) : (String x a ++ b = String x (a ++ b))%string.
Proof. reflexivity. Qed.

Lemma string_length_app (a b : string) :
  String.length (a ++ b) = (String.length a + String.length b)%nat.
Proof. induction a as [|x a IH]; [reflexivity|]. rewrite string_app_cons. simpl. rewrite IH. reflexivity. Qed.

Lemma prefix_app_self (p u : string) : String.prefix p (p ++ u) = true.
Proof.
  induction p as [|x p IH]; [destruct u; reflexivity|]. rewrite string_app_cons. simpl.
  destruct (ascii_dec x x) as [_|n]; [exact IH | contradiction].
Qed.

Lemma prefix_true_app (p s : string) : String.prefix p s = true -> exists u, s = (p ++ u)%string.
Proof.
  revert s. induction p as [|x p IH]; intros s H.
  - exists s. reflexivity.
  - destruct s as [|y s]; simpl in H; [discriminate|].
    destruct (ascii_dec x y) as [->|]; [|discriminate].
    destruct (IH s H) as [u ->]. exists u. reflexivity.
Qed.

Lemma str_suffix_trans (a b c : string) : str_suffix a b -> str_suffix b c -> str_suffix a c.
Proof. intros H1 H2. induction H2; [exact H1 | constructor; auto]. Qed.

Lemma str_suffix_app (v w : string) : str_suffix w (v ++ w).
Proof. induction v; [constructor | rewrite string_app_cons; constructor; auto]. Qed.

Lemma covered_suffix (cs : list string) (s t : string) :
  tokens_covered cs s -> str_suffix t s -> tokens_covered cs t.
Proof. intros H Hts r Hr. apply H. eapply str_suffix_trans; eauto. Qed.

Lemma covered_cons (cs : list string) (x : ascii) (w : string) :
  tokens_covered cs w ->
  (x = "$"%char -> forall u, w = String "{"%char u ->
     exists c, c ∈ cs /\ is_ident c = true /\
               String.prefix (placeholder c) (String x w) = true) ->
  tokens_covered cs (String x w).
Proof.
  intros Hw Hx t Ht Hd. inversion Ht; subst.
  - destruct Hd as [u Hu]. injection Hu as -> ->. exact (Hx eq_refl u eq_refl).
  - apply Hw; assumption.
Qed.

Lemma covered_app_nodollar (cs : list string) (v w : string) :
  has_dollar v = false -> tokens_covered cs w -> tokens_covered cs (v ++ w).
Proof.
  induction v as [|x v IH]; intros Hv Hw; [exact Hw|]. rewrite string_app_cons.
  simpl in Hv. apply orb_false_iff in Hv as [Hx Hv].
  apply covered_cons; [apply IH; assumption|].
  intros ->. discriminate.
Qed.

Lemma covered_nil_no_open (s : string) : tokens_covered [] s -> has_open s = false.
Proof.
  induction s as [|x s IH]; intros H; [reflexivity|].
  cbn [has_open]. apply orb_false_iff. split.
  - destruct (Ascii.eqb x "$"%char) eqn:E; [|reflexivity].
    destruct s as [|y s']; [reflexivity|].
    destruct (Ascii.eqb y "{"%char) eqn:E2; [|reflexivity].
    apply Ascii.eqb_eq in E, E2. subst x y.
    destruct (H _ (suffix_refl _) (ex_intro _ s' eq_refl)) as [c [Hc _]].
    apply not_elem_of_nil in Hc. contradiction.
  - apply IH. eapply covered_suffix; [exact H|]. constructor. constructor.
Qed.

Lemma is_ident_no_dollar (c : string) : is_ident c = true -> has_dollar c = false.
Proof.
  destruct c as [|x r]; simpl; [discriminate|].
  intros H. apply andb_true_iff in H as [Hx Hr].
  apply orb_false_iff. split.
  - destruct (Ascii.eqb x "$"%char) eqn:E; [|reflexivity].
    apply Ascii.eqb_eq in E. subst x. discriminate.
  - induction r as [|y r IH]; simpl in *; [reflexivity|].
    apply andb_true_iff in Hr as [Hy Hr]. apply orb_false_iff. split; [|auto].
    destruct (Ascii.eqb y "$"%char) eqn:E; [|reflexivity].
    apply Ascii.eqb_eq in E. subst y. discriminate.
Qed.

Lemma is_ident_head (z : ascii) (r : string) :
  is_ident (String z r) = true -> Ascii.eqb z "{"%char = false.
Proof.
  intros H. destruct (Ascii.eqb z "{"%char) eqn:E; [|reflexivity].
  apply Ascii.eqb_eq in E. subst z. simpl in H. discriminate.
Qed.

Lemma param_at_no_open (x : ascii) (s : string) :
  (Ascii.eqb x "$"%char &&
   match s with String b _ => Ascii.eqb b "{"%char | EmptyString => false end) = false ->
  param_at (String x s) = None.
Proof. intros Hx. unfold param_at. destruct s as [|b rest]; [reflexivity|]. rewrite Hx. reflexivity. Qed.

Lemma no_open_scan_go (s : string) (k : nat) : has_open s = false -> scan_params_go s k = [].
Proof.
  revert k. induction s as [|x s IH]; intros k H; [reflexivity|].
  cbn [has_open] in H. apply orb_false_iff in H as [Hx Hs].
  destruct k as [|k]; cbn [scan_params_go]; [|apply IH; exact Hs].
  rewrite param_at_no_open by exact Hx. apply IH. exact Hs.
Qed.

Lemma no_open_no_placeholder (s : string) : has_open s = false -> has_placeholder s = false.
Proof. intros H. unfold has_placeholder, scan_params. rewrite no_open_scan_go; auto. Qed.

Lemma placeholder_eq (c : string) :
  placeholder c = String "$"%char (String "{"%char (c ++ "}")).
Proof. reflexivity. Qed.

Lemma has_dollar_app (a b : string) : has_dollar (a ++ b) = has_dollar a || has_dollar b.
Proof.
  induction a as [|x a IH]; [reflexivity|].
  rewrite string_app_cons. simpl. rewrite IH. apply orb_assoc.
Qed.

Lemma placeholder_tail_no_dollar (c : string) :
  has_dollar c = false -> has_dollar (String "{"%char (c ++ "}")) = false.
Proof. intros H. simpl. rewrite has_dollar_app, H. reflexivity. Qed.

Lemma replace_go_skip (old new t u : string) :
  replace_go old new (t ++ u) (String.length t) = replace_go old new u O.
Proof.
  induction t as [|y t IH]; [reflexivity|].
  rewrite string_app_cons. simpl String.length. cbn [replace_go]. exact IH.
Qed.

Lemma replace_go_no_dollar (o new w u : string) :
  has_dollar w = false ->
  replace_go (String "$"%char o) new (w ++ u) O = (w ++ replace_go (String "$"%char o) new u O)%string.
Proof.
  induction w as [|y w IH]; intros Hw; [reflexivity|].
  simpl in Hw. apply orb_false_iff in Hw as [Hy Hw].
  rewrite !string_app_cons. cbn [replace_go].
  assert (Hp : String.prefix (String "$"%char o) (String y (w ++ u)) = false).
  { cbn [String.prefix]. destruct (ascii_dec "$"%char y) as [<-|]; [discriminate | reflexivity]. }
  rewrite Hp, IH by exact Hw. reflexivity.
Qed.

(** A replacement by an identifier never starts with [{]. *)
Lemma replace_go_head (c v s r : string) :
  is_ident v = true -> replace_go (placeholder c) v s O = String "{"%char r ->
  exists u, s = String "{"%char u.
Proof.
  intros Hv. destruct s as [|y s']; [discriminate|]. cbn [replace_go].
  destruct (String.prefix (placeholder c) (String y s')).
  - destruct v as [|z vr]; [discriminate|]. rewrite string_app_cons.
    intros E. injection E as Ez _. subst z.
    apply is_ident_head in Hv. rewrite Ascii.eqb_refl in Hv. discriminate.
  - intros E. injection E as -> _. eexists. reflexivity.
Qed.

(** One substitution round: replacing every [${c}] by an identifier
    leaves every remaining [${] covered by the other names. *)
Lemma replace_placeholder_covered (c : string) (rest : list string) (v : string) :
  is_ident v = true ->
  forall s, tokens_covered (c :: rest) s ->
  tokens_covered rest (replace_go (placeholder c) v s O).
Proof.
  intros Hv s. remember (String.length s) as n eqn:Hn.
  assert (Hle : (String.length s <= n)%nat) by lia. clear Hn.
  revert s Hle. induction n as [|n IHn]; intros s Hle Hcov.
  { destruct s; [|simpl in Hle; lia]. intros t Ht [u ->]. inversion Ht. }
  destruct s as [|x s']; [intros t Ht [u ->]; inversion Ht|].
  simpl in Hle.
  assert (Hs' : tokens_covered (c :: rest) s').
  { eapply covered_suffix; [exact Hcov|]. constructor. constructor. }
  cbn [replace_go].
  destruct (String.prefix (placeholder c) (String x s')) eqn:Hp.
  - destruct (prefix_true_app _ _ Hp) as [u Hu].
    rewrite placeholder_eq, string_app_cons in Hu. injection Hu as -> Hs'u.
    rewrite placeholder_eq.
    change (String.length (String "$"%char (String "{"%char (c ++ "}"))) - 1)%nat
      with (String.length (String "{"%char (c ++ "}"))).
    rewrite Hs'u, replace_go_skip.
    apply covered_app_nodollar; [apply is_ident_no_dollar, Hv|].
    rewrite placeholder_eq in IHn. apply IHn.
    + rewrite Hs'u, string_length_app in Hle. lia.
    + eapply covered_suffix; [exact Hs'|]. rewrite Hs'u. apply str_suffix_app.
  - apply covered_cons; [apply IHn; [lia | exact Hs']|].
    intros -> u Hu. apply replace_go_head in Hu as [u0 Hs'0]; [|exact Hv].
    destruct (Hcov _ (suffix_refl _) (ex_intro _ u0 (f_equal (String "$"%char) Hs'0)))
      as [c' [Hc' [Hid Hpc']]].
    apply elem_of_cons in Hc' as [->|Hc']; [congruence|].
    exists c'. split; [exact Hc'|]. split; [exact Hid|].
    destruct (prefix_true_app _ _ Hpc') as [u' Hu'].
    rewrite placeholder_eq, string_app_cons in Hu'. injection Hu' as Hs'u'.
    rewrite Hs'u', (placeholder_eq c), replace_go_no_dollar.
    + rewrite <- string_app_cons, <- placeholder_eq. apply prefix_app_self.
    + apply placeholder_tail_no_dollar, is_ident_no_dollar, Hid.
Qed.

Lemma placeholder_neq (c v : string) :
  has_dollar v = false -> String.eqb (placeholder c) v = false.
Proof.
  intros Hv. destruct (String.eqb (placeholder c) v) eqn:E; [|reflexivity].
  apply String.eqb_eq in E. rewrite <- E, placeholder_eq in Hv. discriminate.
Qed.

Lemma ReplaceAll_placeholder (s c v : string) :
  has_dollar v = false ->
  ReplaceAll s (placeholder c) v = replace_go (placeholder c) v s O.
Proof.
  intros Hv. unfold ReplaceAll. rewrite placeholder_neq by exact Hv.
  rewrite placeholder_eq. reflexivity.
Qed.

Lemma substitute_loop_resolves (cm : gmap string (list ConceptMatch.t)) :
  forall concepts params processed,
  (forall c, c ∈ concepts -> exists m ms, cm !! c = Some (m :: ms) /\
      is_ident (VariableInfo.Name (ConceptMatch.Variable' m)) = true) ->
  tokens_covered concepts processed ->
  exists params' processed',
    substitute_loop concepts cm params processed = Ok (params', processed') /\
    has_open processed' = false.
Proof.
  induction concepts as [|c rest IH]; intros params processed Hm Hcov.
  - exists params, processed. split; [reflexivity|]. apply covered_nil_no_open, Hcov.
  - destruct (Hm c (proj2 (elem_of_cons rest c c) (or_introl eq_refl))) as [m [ms [Hc Hid]]].
    simpl. rewrite Hc. apply IH.
    + intros c' Hc'. apply Hm. apply elem_of_cons. right. exact Hc'.
    + rewrite ReplaceAll_placeholder by (apply is_ident_no_dollar, Hid).
      apply replace_placeholder_covered; assumption.
Qed.

Lemma tokens_covered_b_sound (cs : list string) (s : string) :
  tokens_covered_b cs s = true -> tokens_covered cs s.
Proof.
  induction s as [|x s IH]; intros H.
  - intros t Ht [u ->]. inversion Ht.
  - cbn [tokens_covered_b] in H. apply andb_true_iff in H as [Hx Hs].
    apply covered_cons; [apply IH, Hs|]. intros -> u ->.
    rewrite !Ascii.eqb_refl in Hx. cbn [andb] in Hx.
    apply existsb_exists in Hx as [c [Hc Hc']].
    apply andb_true_iff in Hc' as [Hid Hp].
    exists c. split; [apply list_elem_of_In, Hc | split; assumption].
Qed.

(** C3 (counterexample): every required concept of the template has a
    match, yet the resolved text still holds the placeholder [${active}],
    which the template mentions without listing it among its concepts. *)
Lemma SubstituteParameters_leaves_placeholder :
  QueryTemplate.Concepts two_placeholder_template = ["locked"] /\
  locked_matches !! "locked" = Some [lock_match] /\
  exists pq, SubstituteParameters two_placeholder_template locked_matches = Ok pq /\
    ParameterizedQuery.ProcessedQuery pq =
      "; Name: Two Placeholders" ++ nl ++ "; Concepts: locked" ++ nl ++
      "(#eq? @a lock) (#eq? @b ${active})" /\
    scan_params (ParameterizedQuery.ProcessedQuery pq) = ["active"].
Proof.
  split; [vm_compute; reflexivity|]. split; [reflexivity|].
  exists (ParameterizedQuery.mk two_placeholder_template {[ "locked" := "lock" ]}
    ("; Name: Two Placeholders" ++ nl ++ "; Concepts: locked" ++ nl ++
     "(#eq? @a lock) (#eq? @b ${active})")).
  split; [vm_compute; reflexivity|]. split; [reflexivity | vm_compute; reflexivity].
Qed.

(** C3 (amended): if every [${] of the template's raw text starts a
    placeholder [${c}] of an identifier [c] among its required concepts,
    and each required concept has a non-empty match list whose first
    (bound) name is an identifier, then substitution succeeds and the
    resolved text contains no [${], hence no placeholder token. *)
Theorem SubstituteParameters_resolves (template : QueryTemplate.t)
    (conceptMatches : gmap string (list ConceptMatch.t)) :
  (forall c, c ∈ QueryTemplate.Concepts template ->
     exists m ms, conceptMatches !! c = Some (m :: ms) /\
       is_ident (VariableInfo.Name (ConceptMatch.Variable' m)) = true) ->
  tokens_covered (QueryTemplate.Concepts template) (QueryTemplate.Original template) ->
  exists pq, SubstituteParameters template conceptMatches = Ok pq /\
    has_open (ParameterizedQuery.ProcessedQuery pq) = false /\
    has_placeholder (ParameterizedQuery.ProcessedQuery pq) = false.
Proof.
  intros Hm Hcov.
  destruct (substitute_loop_resolves conceptMatches _ ∅ _ Hm Hcov) as [params [q [Hq Hd]]].
  exists (ParameterizedQuery.mk template params q).
  unfold SubstituteParameters. rewrite Hq. split; [reflexivity|].
  split; [exact Hd | apply no_open_no_placeholder, Hd].
Qed.

Lemma SubstituteParameters_resolves_witness :
  exists pq, SubstituteParameters reentrancy_template locked_matches = Ok pq /\
    has_open (ParameterizedQuery.ProcessedQuery pq) = false /\
    has_placeholder (ParameterizedQuery.ProcessedQuery pq) = false.
Proof.
  apply (SubstituteParameters_resolves reentrancy_template locked_matches).
  - intros c Hc.
    assert (E : QueryTemplate.Concepts reentrancy_template = ["locked"])
      by (vm_compute; reflexivity).
    rewrite E in Hc. apply list_elem_of_singleton in Hc. subst c.
    exists lock_match, []. split; reflexivity.
  - apply tokens_covered_b_sound. vm_compute. reflexivity.
Defined.

(* ----------------------------------------------------------------- *)
(** ** Templates with an unmatched concept *)

Lemma substitute_loop_unmatched (cm : gmap string (list ConceptMatch.t)) (c : string) :
  default [] (cm !! c) = [] ->
  forall concepts params processed, c ∈ concepts ->
  exists e, substitute_loop concepts cm params processed = Err e.
Proof.
  intros Hc. induction concepts as [|c0 rest IH]; intros params processed Hin.
  - apply not_elem_of_nil in Hin. contradiction.
  - simpl. destruct (cm !! c0) as [[|m ms]|] eqn:E; [eexists; reflexivity| |eexists; reflexivity].
    apply elem_of_cons in Hin as [->|Hin].
    + rewrite E in Hc. discriminate.
    + apply IH, Hin.
Qed.

(** C6: a template requiring a concept with no match (no entry or an
    empty list) fails substitution; [ProcessTemplatedQueries] drops it and
    processes the templates around it exactly as without it. *)
Theorem ProcessTemplatedQueries_fail_closed (template : QueryTemplate.t)
    (conceptMatches : gmap string (list ConceptMatch.t)) (concept source : string)
    (before after : list (string * QueryTemplate.t)) :
  concept ∈ QueryTemplate.Concepts template ->
  default [] (conceptMatches !! concept) = [] ->
  (exists e, SubstituteParameters template conceptMatches = Err e) /\
  ProcessTemplatedQueries (app before ((source, template) :: after)) conceptMatches =
    app (ProcessTemplatedQueries before conceptMatches)
        (ProcessTemplatedQueries after conceptMatches).
Proof.
  intros Hin Hc.
  assert (He : exists e, SubstituteParameters template conceptMatches = Err e).
  { destruct (substitute_loop_unmatched conceptMatches concept Hc
                (QueryTemplate.Concepts template) ∅ (QueryTemplate.Original template) Hin)
      as [e He].
    exists e. unfold SubstituteParameters. rewrite He. reflexivity. }
  split; [exact He|].
  unfold ProcessTemplatedQueries. rewrite omap_app. f_equal.
  destruct He as [e He]. simpl. rewrite He.
  destruct (QueryTemplate.Concepts template); reflexivity.
Qed.

Lemma ProcessTemplatedQueries_fail_closed_witness :
  (exists e, SubstituteParameters active_template locked_matches = Err e) /\
  ProcessTemplatedQueries
    (app [] (("templated/missing_activation.scm", active_template)
             :: [("templated/missing_reentrancy_guard.scm", reentrancy_template)]))
    locked_matches =
  app (ProcessTemplatedQueries [] locked_matches)
      (ProcessTemplatedQueries
         [("templated/missing_reentrancy_guard.scm", reentrancy_template)] locked_matches).
Proof.
  apply (ProcessTemplatedQueries_fail_closed active_template locked_matches "active").
  - assert (E : QueryTemplate.Concepts active_template = ["active"]) by (vm_compute; reflexivity).
    rewrite E. apply list_elem_of_singleton. reflexivity.
  - vm_compute. reflexivity.
Defined.

(* ----------------------------------------------------------------- *)
(** ** Which queries analyze-smart runs *)

Lemma match_loop_offline_ok (remote_embed : string -> result Embedding.t)
    (m : EmbeddingMatcher.t) :
  EmbeddingMatcher.Offline m = true ->
  forall vars r s, exists cm s', match_loop remote_embed m vars r s = (Ok cm, s').
Proof.
  intros Hoff. induction vars as [|v vars IH]; intros r s.
  - exists r, s. reflexivity.
  - cbn [match_loop]. unfold bind, MatchVariable, bind, ret, GetVariableEmbedding.
    destruct (Cache s !! VariableInfo.Name v); [apply IH|]. rewrite Hoff. apply IH.
Qed.

Lemma MatchVariables_offline_ok (remote_embed : string -> result Embedding.t)
    (securityConcepts : list SecurityConcept.t) (vars : list VariableInfo.t) (s : MatcherState) :
  exists cm s', MatchVariables remote_embed (NewEmbeddingMatcher securityConcepts true) vars s
                = (Ok cm, s').
Proof. apply match_loop_offline_ok. reflexivity. Qed.

Lemma iterates_singleton {A} (k : string) (x : A) (l : list (string * A)) :
  iterates {[k := x]} l -> l = [(k, x)].
Proof. unfold iterates. rewrite map_to_list_singleton. apply Permutation_singleton_r. Qed.

(** C1 (code bug): with the templated reentrancy query as the only
    query file, analyze-smart (offline, whatever the variables) hands the
    raw query to [RunQueries] along with the standard queries: its pattern,
    which still holds [${locked}], is run against the tree, and each of its
    matches is reported as a finding under the template's own name, not
    the parameterized form. *)
Theorem raw_template_executed (remote_embed : string -> result Embedding.t)
    (securityConcepts : list SecurityConcept.t) (vars : list VariableInfo.t)
    (exec : Executor) (queryOrder : list (string * string))
    (templateOrder : list (string * QueryTemplate.t)) (matches : list (list Capture)) :
  iterates {[reentrancy_source := missing_reentrancy_guard_scm]} queryOrder ->
  exec (extractQueryPattern missing_reentrancy_guard_scm) = Some matches ->
  has_placeholder (extractQueryPattern missing_reentrancy_guard_scm) = true /\
  exists out,
    analyzeSmart remote_embed securityConcepts true vars
      {[reentrancy_source := missing_reentrancy_guard_scm]} exec queryOrder templateOrder
      = Report out /\
    extractQueryPattern missing_reentrancy_guard_scm ∈ executed out /\
    (forall capture rest, (capture :: rest) ∈ matches ->
       QueryResult.mk "Missing Reentrancy Guard" reentrancy_source
         "External functions that should check reentrancy guard but don't"
         (line_of_row (cap_row capture)) (cap_text capture) ∈ results out).
Proof.
  intros Hq Hexec. apply iterates_singleton in Hq. subst queryOrder.
  split; [vm_compute; reflexivity|].
  unfold analyzeSmart.
  destruct (MatchVariables_offline_ok remote_embed securityConcepts vars fresh_state)
    as [cm [s' Hm]].
  rewrite Hm. cbn [fst].
  destruct (decide _) as [E|_]; [exfalso; exact (map_non_empty_singleton _ _ E)|].
  eexists. split; [reflexivity|].
  cbn [RunQueries run_app results executed].
  unfold run_one. rewrite (proj2 reentrancy_raw_pattern).
  cbn [String.eqb]. rewrite Hexec. cbn [results executed].
  split.
  - apply elem_of_app. left. apply elem_of_app. left. apply elem_of_cons. left. reflexivity.
  - intros capture rest Hin.
    apply elem_of_app. left. apply elem_of_app. left.
    apply list_elem_of_omap. exists (capture :: rest). split; [exact Hin | reflexivity].
Qed.

Lemma raw_template_executed_witness :
  has_placeholder (extractQueryPattern missing_reentrancy_guard_scm) = true /\
  exists out,
    analyzeSmart (fun _ => Err "offline") DefaultSecurityConcepts true [var "lock" 3]
      {[reentrancy_source := missing_reentrancy_guard_scm]}
      (fun _ => Some [[mkCapture 6 "function deposit() external {}"]])
      [(reentrancy_source, missing_reentrancy_guard_scm)]
      (map_to_list (query_templates {[reentrancy_source := missing_reentrancy_guard_scm]}))
      = Report out /\
    extractQueryPattern missing_reentrancy_guard_scm ∈ executed out /\
    (forall capture rest,
       (capture :: rest) ∈ [[mkCapture 6 "function deposit() external {}"]] ->
       QueryResult.mk "Missing Reentrancy Guard" reentrancy_source
         "External functions that should check reentrancy guard but don't"
         (line_of_row (cap_row capture)) (cap_text capture) ∈ results out).
Proof.
  apply (raw_template_executed (fun _ => Err "offline") DefaultSecurityConcepts [var "lock" 3]
           (fun _ => Some [[mkCapture 6 "function deposit() external {}"]])
           [(reentrancy_source, missing_reentrancy_guard_scm)]
           (map_to_list (query_templates {[reentrancy_source := missing_reentrancy_guard_scm]}))
           [[mkCapture 6 "function deposit() external {}"]]).
  - unfold iterates. rewrite map_to_list_singleton. reflexivity.
  - reflexivity.
Defined.

(* ----------------------------------------------------------------- *)
(** ** Identifier extraction *)

Lemma extract_captures_spec (caps : list Capture) :
  forall seen : gset string,
  let vs := extract_captures caps seen in
  NoDup (map VariableInfo.Name vs) /\
  (forall x, x ∈ map VariableInfo.Name vs <-> x ∈ map cap_text caps /\ x ∉ seen) /\
  (forall v, v ∈ vs -> exists l1 c l2,
     caps = app l1 (c :: l2) /\ v = variable_of_capture c /\ cap_text c ∉ map cap_text l1).
Proof.
  induction caps as [|c0 rest IH]; intros seen vs; subst vs.
  - split; [constructor|]. split.
    + intros x. cbn. split; [intros H; apply not_elem_of_nil in H; contradiction|].
      intros [H _]. apply not_elem_of_nil in H. contradiction.
    + intros v H. apply not_elem_of_nil in H. contradiction.
  - cbn [extract_captures]. destruct (decide (cap_text c0 ∈ seen)) as [Hs|Hs].
    + destruct (IH seen) as [Hnd [Hmem Hfirst]]. split; [exact Hnd|]. split.
      * intros x. rewrite Hmem. cbn [map]. rewrite elem_of_cons.
        split; [tauto|]. intros [[->|Hx] Hn]; [contradiction | tauto].
      * intros v Hv. destruct (Hfirst v Hv) as [l1 [c [l2 [Hr [-> Hnot]]]]].
        exists (c0 :: l1), c, l2. split; [rewrite Hr; reflexivity|]. split; [reflexivity|].
        assert (Hc : cap_text c ∉ seen).
        { apply (Hmem (cap_text c)). apply list_elem_of_fmap. exists (variable_of_capture c).
          split; [reflexivity | exact Hv]. }
        cbn [map]. rewrite elem_of_cons. intros [E|E]; [rewrite E in Hc; contradiction | contradiction].
    + destruct (IH ({[cap_text c0]} ∪ seen)) as [Hnd [Hmem Hfirst]].
      split.
      * cbn [map]. constructor; [|exact Hnd].
        intros Hin. apply Hmem in Hin as [_ Hin]. apply Hin. set_solver.
      * split.
        -- intros x. cbn [map]. rewrite !elem_of_cons, Hmem. simpl VariableInfo.Name.
           split.
           ++ intros [->|[Hx Hn]]; [tauto|]. split; [tauto | set_solver].
           ++ intros [[->|Hx] Hn]; [tauto|].
              destruct (decide (x = cap_text c0)) as [->|Hne]; [tauto|].
              right. split; [exact Hx | set_solver].
        -- intros v Hv. apply elem_of_cons in Hv as [->|Hv].
           ++ exists [], c0, rest. split; [reflexivity|]. split; [reflexivity|].
              cbn [map]. apply not_elem_of_nil.
           ++ destruct (Hfirst v Hv) as [l1 [c [l2 [Hr [-> Hnot]]]]].
              exists (c0 :: l1), c, l2. split; [rewrite Hr; reflexivity|]. split; [reflexivity|].
              assert (Hc : cap_text c ∉ {[cap_text c0]} ∪ seen).
              { apply (Hmem (cap_text c)). apply list_elem_of_fmap. exists (variable_of_capture c).
                split; [reflexivity | exact Hv]. }
              cbn [map]. rewrite elem_of_cons. intros [E|E]; [rewrite E in Hc; set_solver | contradiction].
Qed.

(** C9: when the identifier query runs, [ExtractVariables] returns one
    record per distinct capture text (the names are pairwise distinct and
    are exactly the captured texts), and each record is built from the
    first capture, in cursor order, carrying its text: its line is that
    capture's row plus one. *)
Theorem ExtractVariables_first_occurrence (exec : Executor) (matches : list (list Capture)) :
  exec identifier_query = Some matches ->
  exists vs, ExtractVariables exec = Ok vs /\
    NoDup (map VariableInfo.Name vs) /\
    (forall x, x ∈ map VariableInfo.Name vs <-> x ∈ map cap_text (concat matches)) /\
    (forall v, v ∈ vs -> exists l1 c l2,
       concat matches = app l1 (c :: l2) /\ (cap_text c ∉ map cap_text l1) /\
       VariableInfo.Name v = cap_text c /\
       VariableInfo.LineNumber v = line_of_row (cap_row c) /\
       v = variable_of_capture c).
Proof.
  intros Hexec. exists (extract_captures (concat matches) ∅).
  unfold ExtractVariables. rewrite Hexec. split; [reflexivity|].
  destruct (extract_captures_spec (concat matches) ∅) as [Hnd [Hmem Hfirst]].
  split; [exact Hnd|]. split.
  - intros x. rewrite Hmem. split; [tauto|]. intros Hx. split; [exact Hx | apply not_elem_of_empty].
  - intros v Hv. destruct (Hfirst v Hv) as [l1 [c [l2 [Hr [-> Hnot]]]]].
    exists l1, c, l2. repeat split; assumption.
Qed.

Lemma ExtractVariables_first_occurrence_witness :
  exists vs, ExtractVariables
      (fun _ => Some [[mkCapture 2 "locked"]; [mkCapture 4 "amount"]; [mkCapture 9 "locked"]])
    = Ok vs /\
    NoDup (map VariableInfo.Name vs) /\
    (forall x, x ∈ map VariableInfo.Name vs <->
       x ∈ map cap_text (concat [[mkCapture 2 "locked"]; [mkCapture 4 "amount"]; [mkCapture 9 "locked"]])) /\
    (forall v, v ∈ vs -> exists l1 c l2,
       concat [[mkCapture 2 "locked"]; [mkCapture 4 "amount"]; [mkCapture 9 "locked"]]
         = app l1 (c :: l2) /\ (cap_text c ∉ map cap_text l1) /\
       VariableInfo.Name v = cap_text c /\
       VariableInfo.LineNumber v = line_of_row (cap_row c) /\
       v = variable_of_capture c).
Proof.
  apply (ExtractVariables_first_occurrence
           (fun _ => Some [[mkCapture 2 "locked"]; [mkCapture 4 "amount"]; [mkCapture 9 "locked"]])).
  reflexivity.
Defined.

(* ----------------------------------------------------------------- *)
(** ** Order of the findings *)

Lemma results_RunQueries (exec : Executor) (l : list (string * string)) :
  results (RunQueries exec l) = concat (map (fun '(f, c) => results (run_one exec f c)) l).
Proof. induction l as [|[f c] l IH]; [reflexivity|]. cbn. rewrite IH. reflexivity. Qed.

Lemma results_run_all_parameterized (exec : Executor) (l : list ParameterizedQuery.t) :
  results (run_all_parameterized exec l) = concat (map (fun pq => results (run_parameterized exec pq)) l).
Proof. induction l as [|pq l IH]; [reflexivity|]. cbn. rewrite IH. reflexivity. Qed.

Lemma concat_map_Permutation {A B} (g : A -> list B) (l1 l2 : list A) :
  l1 ≡ₚ l2 -> concat (map g l1) ≡ₚ concat (map g l2).
Proof.
  induction 1 as [|x l1 l2 _ IH|x y l|l1 l2 l3 _ IH1 _ IH2]; cbn.
  - reflexivity.
  - apply Permutation_app_head, IH.
  - rewrite !(assoc app). apply Permutation_app_tail, Permutation_app_comm.
  - etrans; eauto.
Qed.

Lemma iterates_Permutation {A} (m : gmap string A) (l1 l2 : list (string * A)) :
  iterates m l1 -> iterates m l2 -> l1 ≡ₚ l2.
Proof. unfold iterates. intros H1 H2. rewrite H1, H2. reflexivity. Qed.

(** C8 (amended): two offline runs on the same input, whatever orders
    the two [range] loops take in each, end the same way, and when they
    report, their findings are the same up to order. *)
Theorem analyzeSmart_findings_permutation (remote_embed : string -> result Embedding.t)
    (securityConcepts : list SecurityConcept.t) (vars : list VariableInfo.t)
    (queries : gmap string string) (exec : Executor)
    (queryOrder1 queryOrder2 : list (string * string))
    (templateOrder1 templateOrder2 : list (string * QueryTemplate.t)) :
  iterates queries queryOrder1 -> iterates queries queryOrder2 ->
  iterates (query_templates queries) templateOrder1 ->
  iterates (query_templates queries) templateOrder2 ->
  match analyzeSmart remote_embed securityConcepts true vars queries exec queryOrder1 templateOrder1,
        analyzeSmart remote_embed securityConcepts true vars queries exec queryOrder2 templateOrder2 with
  | Report out1, Report out2 => results out1 ≡ₚ results out2
  | o1, o2 => o1 = o2
  end.
Proof.
  intros Hq1 Hq2 Ht1 Ht2. unfold analyzeSmart.
  destruct (fst (MatchVariables _ _ _ _)) as [cm|e]; [|reflexivity].
  destruct (decide (queries = ∅)); [reflexivity|].
  cbn [run_app results].
  apply Permutation_app.
  - rewrite !results_RunQueries. apply concat_map_Permutation.
    eapply iterates_Permutation; eassumption.
  - rewrite !results_run_all_parameterized. apply concat_map_Permutation.
    unfold ProcessTemplatedQueries. apply omap_Permutation.
    eapply iterates_Permutation; eassumption.
Qed.

(** C8 (counterexample): the two orders of visiting the query map are
    both possible [range] visits, and the two offline runs report the same
    two findings in opposite orders. *)
Lemma analyzeSmart_order_dependent :
  iterates two_queries [("a.scm", query_a); ("b.scm", query_b)] /\
  iterates two_queries [("b.scm", query_b); ("a.scm", query_a)] /\
  exists out1 out2,
    analyzeSmart (fun _ => Err "offline") DefaultSecurityConcepts true [var "lock" 3]
      two_queries echo_exec [("a.scm", query_a); ("b.scm", query_b)]
      (map_to_list (query_templates two_queries)) = Report out1 /\
    analyzeSmart (fun _ => Err "offline") DefaultSecurityConcepts true [var "lock" 3]
      two_queries echo_exec [("b.scm", query_b); ("a.scm", query_a)]
      (map_to_list (query_templates two_queries)) = Report out2 /\
    map QueryResult.QueryName (results out1) = ["A"; "B"] /\
    map QueryResult.QueryName (results out2) = ["B"; "A"] /\
    results out1 <> results out2.
Proof.
  split; [unfold iterates; vm_compute; first [reflexivity | apply perm_swap]|].
  split; [unfold iterates; vm_compute; first [reflexivity | apply perm_swap]|].
  do 2 eexists. split; [vm_compute; reflexivity|]. split; [vm_compute; reflexivity|].
  split; [vm_compute; reflexivity|]. split; [vm_compute; reflexivity|].
  vm_compute. discriminate.
Qed.

Lemma analyzeSmart_findings_permutation_witness :
  match analyzeSmart (fun _ => Err "offline") DefaultSecurityConcepts true [var "lock" 3]
          two_queries echo_exec [("a.scm", query_a); ("b.scm", query_b)]
          (map_to_list (query_templates two_queries)),
        analyzeSmart (fun _ => Err "offline") DefaultSecurityConcepts true [var "lock" 3]
          two_queries echo_exec [("b.scm", query_b); ("a.scm", query_a)]
          (map_to_list (query_templates two_queries)) with
  | Report out1, Report out2 => results out1 ≡ₚ results out2
  | o1, o2 => o1 = o2
  end.
Proof.
  apply (analyzeSmart_findings_permutation (fun _ => Err "offline") DefaultSecurityConcepts
           [var "lock" 3] two_queries echo_exec);
    unfold iterates; first [reflexivity | vm_compute; first [reflexivity | apply perm_swap]].
Defined.

(* ----------------------------------------------------------------- *)
(** ** Loading the concept catalog *)

(** C5 (counterexample): the split layout is located and its
    [embeddings.toml] is malformed, yet loading succeeds with the concepts
    of [concepts.toml] and no vectors. *)
Lemma LoadSecurityConcepts_malformed_embeddings_ok :
  stat split_bad_embeddings "embeddings/embeddings.toml" = true /\
  ReadFile split_bad_embeddings "embeddings/embeddings.toml" = Ok "[[embeddings" /\
  LoadSecurityConcepts parse_ok_concepts (fun _ => None) (fun _ => None) None split_bad_embeddings
    = Ok [default_concept "locked" "guard" []].
Proof. split; [reflexivity|]. split; [reflexivity|]. vm_compute. reflexivity. Qed.


(* ================================================================= *)
(** * Further properties of the code *)

(* ----------------------------------------------------------------- *)
(** ** Float32 arithmetic and comparisons *)



Lemma SFcompare_swap x y : SFcompare y x = option_map CompOpp (SFcompare x y).
Proof.
  destruct x as [sx|sx| |sx mx ex], y as [sy|sy| |sy my ey]; simpl;
    try (destruct sx); try (destruct sy); try reflexivity;
    rewrite (Z.compare_antisym ex ey); destruct (ex ?= ey)%Z; simpl; try reflexivity;
    pose proof (Pos.compare_cont_antisym mx my Eq) as P; simpl in P; rewrite <- P;
    destruct (Pos.compare_cont Eq mx my); reflexivity.
Qed.

Lemma gt32_asym x y : gt32 x y = true -> gt32 y x = false.
Proof.
  unfold gt32, SFltb. rewrite (SFcompare_swap y x).
  destruct (SFcompare y x) as [[| |]|]; simpl; congruence.
Qed.

(* ----------------------------------------------------------------- *)
(** ** The similarity score is symmetric *)



(* ----------------------------------------------------------------- *)
(** ** The offline embedding *)

Lemma offline_component_small (name : string) (i : nat) :
  (i < String.length name)%nat ->
  offline_component name i =
    match String.get i name with
    | Some ch => div32 (of_Z32 (Z.of_nat (nat_of_ascii ch))) (of_Z32 255)
    | None => zero32
    end.
Proof.
  intros H. unfold offline_component.
  pose proof H as H'. apply Nat.ltb_lt in H'. rewrite H', Nat.mod_small by exact H.
  reflexivity.
Qed.

(** X2: the offline embedding reads only the first three bytes of the
    name: any two names that share their first three bytes get the same
    vector, hence the same score against every concept. *)
Theorem getOfflineEmbedding_first_three_bytes (a b c : ascii) (r1 r2 : string) :
  getOfflineEmbedding (String a (String b (String c r1))) =
  getOfflineEmbedding (String a (String b (String c r2))).
Proof.
  unfold getOfflineEmbedding. simpl seq. cbn [map].
  rewrite !offline_component_small by (simpl; lia).
  reflexivity.
Qed.

(* ----------------------------------------------------------------- *)
(** ** The embedding cache, remote mode *)

(** X1: in remote mode a fetched vector is cached under the variable's
    name: after a successful call, a call for any variable with the same
    name returns the same vector and leaves the state (cache and call
    log) unchanged, so the remote service is not asked again. *)
Theorem GetVariableEmbedding_cached_by_name remote_embed (m : EmbeddingMatcher.t)
    (v w : VariableInfo.t) (s s' : MatcherState) (e : Embedding.t) :
  EmbeddingMatcher.Offline m = false ->
  VariableInfo.Name w = VariableInfo.Name v ->
  GetVariableEmbedding remote_embed m v s = (Ok e, s') ->
  Cache s' !! VariableInfo.Name v = Some e /\
  GetVariableEmbedding remote_embed m w s' = (Ok e, s').
Proof.
  intros Hoff Hw. unfold GetVariableEmbedding. rewrite Hoff, Hw.
  destruct (Cache s !! VariableInfo.Name v) as [e0|] eqn:Hc.
  - intros [= <- <-]. rewrite Hc. split; reflexivity.
  - destruct (remote_embed (VariableInfo.Name v)) as [e1|err]; [|discriminate].
    intros [= <- <-]. simpl. rewrite lookup_insert_eq. split; reflexivity.
Qed.

Lemma GetVariableEmbedding_cached_by_name_witness :
  Cache (mkState {[ "lock" := Embedding.mk [of_Z32 1] ]} [RemoteCall "lock"]) !! "lock"
    = Some (Embedding.mk [of_Z32 1]) /\
  GetVariableEmbedding (fun _ => Ok (Embedding.mk [of_Z32 1])) (NewEmbeddingMatcher [] false)
    (var "lock" 7) (mkState {[ "lock" := Embedding.mk [of_Z32 1] ]} [RemoteCall "lock"])
    = (Ok (Embedding.mk [of_Z32 1]),
       mkState {[ "lock" := Embedding.mk [of_Z32 1] ]} [RemoteCall "lock"]).
Proof.
  apply (GetVariableEmbedding_cached_by_name (fun _ => Ok (Embedding.mk [of_Z32 1]))
           (NewEmbeddingMatcher [] false) (var "lock" 3) (var "lock" 7) fresh_state).
  - reflexivity.
  - reflexivity.
  - reflexivity.
Defined.

(* ----------------------------------------------------------------- *)
(** ** The matches of one variable *)

Lemma insert_desc_perm (x : ConceptMatch.t) (r : list ConceptMatch.t) :
  insert_desc x r ≡ₚ x :: r.
Proof.
  induction r as [|y r IH]; simpl; [reflexivity|].
  destruct (gt32 _ _); [|reflexivity].
  etrans; [apply perm_skip, IH | apply perm_swap].
Qed.

Lemma sort_matches_perm (l : list ConceptMatch.t) : sort_matches l ≡ₚ l.
Proof.
  unfold sort_matches. etrans; [symmetry; apply Permutation_rev|].
  assert (Hf : forall acc,
            fold_left (fun acc x => insert_desc x acc) l acc ≡ₚ app l acc).
  { induction l as [|x l IH]; intros acc; simpl; [reflexivity|].
    etrans; [apply IH|].
    etrans; [apply Permutation_app_head, insert_desc_perm|].
    symmetry. apply Permutation_middle. }
  etrans; [apply Hf|]. rewrite app_nil_r. reflexivity.
Qed.

Lemma insert_desc_hd (x y : ConceptMatch.t) (r : list ConceptMatch.t) :
  score_desc x y -> HdRel (flip score_desc) y r ->
  HdRel (flip score_desc) y (insert_desc x r).
Proof.
  intros Hxy Hr. destruct r as [|z r]; simpl.
  - constructor. exact Hxy.
  - inversion Hr; subst.
    destruct (gt32 _ _); constructor; assumption.
Qed.

Lemma insert_desc_sorted (x : ConceptMatch.t) (r : list ConceptMatch.t) :
  Sorted (flip score_desc) r -> Sorted (flip score_desc) (insert_desc x r).
Proof.
  induction r as [|y r IH]; simpl; intros Hs.
  - repeat constructor.
  - inversion Hs; subst.
    destruct (gt32 _ _) eqn:G.
    + constructor; [apply IH; assumption|].
      apply insert_desc_hd; [|assumption].
      unfold score_desc. apply gt32_asym. exact G.
    + constructor; [exact Hs|]. constructor. exact G.
Qed.

Lemma Sorted_app_one {A} (R : A -> A -> Prop) (l : list A) (x y : A) :
  Sorted R (app l [y]) -> R y x -> Sorted R (app l [y; x]).
Proof.
  induction l as [|a l IH]; simpl; intros H Hr.
  - repeat constructor. exact Hr.
  - inversion H; subst. constructor; [apply IH; assumption|].
    destruct l; simpl in *; inversion H3; subst; constructor; assumption.
Qed.

Lemma Sorted_rev_flip {A} (R : A -> A -> Prop) (l : list A) :
  Sorted R l -> Sorted (flip R) (rev l).
Proof.
  induction l as [|a l IH]; simpl; intros H; [constructor|].
  inversion H; subst. specialize (IH H2).
  destruct l as [|b l']; simpl; [repeat constructor|].
  simpl in IH. rewrite <- app_assoc. simpl.
  apply Sorted_app_one; [exact IH|].
  inversion H3; subst. assumption.
Qed.

Lemma sort_matches_sorted (l : list ConceptMatch.t) : Sorted score_desc (sort_matches l).
Proof.
  unfold sort_matches.
  assert (Hf : forall acc, Sorted (flip score_desc) acc ->
            Sorted (flip score_desc) (fold_left (fun acc x => insert_desc x acc) l acc)).
  { induction l as [|x l IH]; intros acc Hacc; simpl; [exact Hacc|].
    apply IH, insert_desc_sorted, Hacc. }
  apply (Sorted_rev_flip (flip score_desc)), Hf. constructor.
Qed.

Lemma concept_matches_elem (m : EmbeddingMatcher.t) (v : VariableInfo.t)
    (e : Embedding.t) (x : ConceptMatch.t) :
  x ∈ concept_matches m v e <->
  exists c, c ∈ EmbeddingMatcher.Concepts m /\
    ge32 (CosineSimilarity e (SecurityConcept.Embedding c))
         (EmbeddingMatcher.SimilarityThreshold m) = true /\
    x = ConceptMatch.mk v (SecurityConcept.Name c)
          (CosineSimilarity e (SecurityConcept.Embedding c)).
Proof.
  unfold concept_matches. rewrite list_elem_of_omap. split.
  - intros [c [Hc Hx]]. destruct (ge32 _ _) eqn:G; [|discriminate].
    injection Hx as <-. eauto.
  - intros [c [Hc [G ->]]]. exists c. split; [exact Hc|]. rewrite G. reflexivity.
Qed.

Lemma concept_matches_names (m : EmbeddingMatcher.t) (v : VariableInfo.t) (e : Embedding.t) :
  map ConceptMatch.Concept (concept_matches m v e) =
  map SecurityConcept.Name
    (List.filter (fun c => ge32 (CosineSimilarity e (SecurityConcept.Embedding c))
                                (EmbeddingMatcher.SimilarityThreshold m))
       (EmbeddingMatcher.Concepts m)).
Proof.
  unfold concept_matches.
  induction (EmbeddingMatcher.Concepts m) as [|c cs IH]; simpl; [reflexivity|].
  destruct (ge32 _ _); simpl; [f_equal|]; exact IH.
Qed.

Lemma MatchVariable_inv remote_embed (m : EmbeddingMatcher.t) (v : VariableInfo.t)
    (s s' : MatcherState) (ms : list ConceptMatch.t) :
  MatchVariable remote_embed m v s = (Ok ms, s') ->
  exists e, GetVariableEmbedding remote_embed m v s = (Ok e, s') /\
            ms = sort_matches (concept_matches m v e).
Proof.
  unfold MatchVariable, bind, ret.
  destruct (GetVariableEmbedding remote_embed m v s) as [[e|err] s0].
  - intros [= <- <-]. eauto.
  - discriminate.
Qed.

(** X3: when [MatchVariable] succeeds with the embedding [e] of the
    variable, its matches are exactly one per catalog concept whose score
    [CosineSimilarity e concept] is at or above the threshold (with
    multiplicity: the concept names are those of the passing concepts),
    each carrying the variable and that score, and they are sorted: no
    match scores strictly higher than the one before it. *)
Theorem MatchVariable_spec remote_embed (m : EmbeddingMatcher.t) (v : VariableInfo.t)
    (s s' : MatcherState) (ms : list ConceptMatch.t) :
  MatchVariable remote_embed m v s = (Ok ms, s') ->
  exists e, GetVariableEmbedding remote_embed m v s = (Ok e, s') /\
    (forall x, x ∈ ms <->
       exists c, c ∈ EmbeddingMatcher.Concepts m /\
         ge32 (CosineSimilarity e (SecurityConcept.Embedding c))
              (EmbeddingMatcher.SimilarityThreshold m) = true /\
         x = ConceptMatch.mk v (SecurityConcept.Name c)
               (CosineSimilarity e (SecurityConcept.Embedding c))) /\
    map ConceptMatch.Concept ms ≡ₚ
      map SecurityConcept.Name
        (List.filter (fun c => ge32 (CosineSimilarity e (SecurityConcept.Embedding c))
                                    (EmbeddingMatcher.SimilarityThreshold m))
           (EmbeddingMatcher.Concepts m)) /\
    Sorted score_desc ms.
Proof.
  intros H. destruct (MatchVariable_inv _ _ _ _ _ _ H) as [e [He ->]].
  exists e. split; [exact He|]. split; [|split].
  - intros x. rewrite <- concept_matches_elem, !list_elem_of_In.
    split; apply Permutation_in; [|symmetry]; apply sort_matches_perm.
  - rewrite <- (concept_matches_names m v e). apply Permutation_map, sort_matches_perm.
  - apply sort_matches_sorted.
Qed.

Lemma MatchVariable_spec_witness :
  exists e,
    GetVariableEmbedding (fun _ => Err "unused") (NewEmbeddingMatcher [concept_active_offline] true)
      (var "is_active" 5) fresh_state
      = (Ok e, log_call (OfflineCall "is_active") fresh_state) /\
    (forall x, x ∈ [ConceptMatch.mk (var "is_active" 5) "active"
                      (CosineSimilarity (getOfflineEmbedding "is_active")
                         (getOfflineEmbedding "is_active"))] <->
       exists c, c ∈ [concept_active_offline] /\
         ge32 (CosineSimilarity e (SecurityConcept.Embedding c)) (ratio32 7 10) = true /\
         x = ConceptMatch.mk (var "is_active" 5) (SecurityConcept.Name c)
               (CosineSimilarity e (SecurityConcept.Embedding c))) /\
    map ConceptMatch.Concept
      [ConceptMatch.mk (var "is_active" 5) "active"
         (CosineSimilarity (getOfflineEmbedding "is_active") (getOfflineEmbedding "is_active"))]
      ≡ₚ map SecurityConcept.Name
           (List.filter (fun c => ge32 (CosineSimilarity e (SecurityConcept.Embedding c))
                                       (ratio32 7 10)) [concept_active_offline]) /\
    Sorted score_desc
      [ConceptMatch.mk (var "is_active" 5) "active"
         (CosineSimilarity (getOfflineEmbedding "is_active") (getOfflineEmbedding "is_active"))].
Proof.
  apply (MatchVariable_spec (fun _ => Err "unused") (NewEmbeddingMatcher [concept_active_offline] true)
           (var "is_active" 5) fresh_state (log_call (OfflineCall "is_active") fresh_state)).
  vm_compute. reflexivity.
Defined.

(* ----------------------------------------------------------------- *)
(** ** Grouping the matches of all variables *)

Lemma group_match_ok (P : ConceptMatch.t -> Prop) r (x : ConceptMatch.t) :
  groups_ok P r -> P x -> groups_ok P (group_match r x).
Proof.
  intros Hr Hx c ms. unfold group_match.
  destruct (decide (ConceptMatch.Concept x = c)) as [<-|Hne].
  - rewrite lookup_insert_eq. intros [= <-]. split.
    + intros Hn. apply app_eq_nil in Hn as [_ Hn]. discriminate.
    + intros y Hy. apply elem_of_app in Hy as [Hy|Hy].
      * destruct (r !! ConceptMatch.Concept x) as [l|] eqn:E; simpl in Hy.
        -- exact (proj2 (Hr _ _ E) y Hy).
        -- apply not_elem_of_nil in Hy as [].
      * apply list_elem_of_singleton in Hy as ->. split; [reflexivity | exact Hx].
  - rewrite lookup_insert_ne by exact Hne. apply Hr.
Qed.

Lemma fold_group_ok (P : ConceptMatch.t -> Prop) (ms : list ConceptMatch.t) r :
  groups_ok P r -> (forall x, x ∈ ms -> P x) -> groups_ok P (fold_left group_match ms r).
Proof.
  revert r. induction ms as [|x ms IH]; intros r Hr Hms; simpl; [exact Hr|].
  apply IH.
  - apply group_match_ok; [exact Hr|]. apply Hms, elem_of_cons. left. reflexivity.
  - intros y Hy. apply Hms, elem_of_cons. right. exact Hy.
Qed.

Lemma MatchVariable_elem remote_embed (m : EmbeddingMatcher.t) (v : VariableInfo.t)
    (s s' : MatcherState) (ms : list ConceptMatch.t) (x : ConceptMatch.t) :
  MatchVariable remote_embed m v s = (Ok ms, s') -> x ∈ ms ->
  ConceptMatch.Variable' x = v /\
  ge32 (ConceptMatch.SimilarityScore x) (EmbeddingMatcher.SimilarityThreshold m) = true.
Proof.
  intros H Hx. destruct (MatchVariable_inv _ _ _ _ _ _ H) as [e [_ ->]].
  rewrite list_elem_of_In in Hx.
  apply (Permutation_in _ (sort_matches_perm _)) in Hx.
  rewrite <- list_elem_of_In in Hx.
  apply concept_matches_elem in Hx as [c [_ [G ->]]].
  split; [reflexivity | exact G].
Qed.

Lemma match_loop_groups remote_embed (m : EmbeddingMatcher.t) (all : list VariableInfo.t) :
  forall vars r s cm s',
    (forall v, v ∈ vars -> v ∈ all) ->
    groups_ok (fun x => ConceptMatch.Variable' x ∈ all /\
                 ge32 (ConceptMatch.SimilarityScore x)
                      (EmbeddingMatcher.SimilarityThreshold m) = true) r ->
    match_loop remote_embed m vars r s = (Ok cm, s') ->
    groups_ok (fun x => ConceptMatch.Variable' x ∈ all /\
                 ge32 (ConceptMatch.SimilarityScore x)
                      (EmbeddingMatcher.SimilarityThreshold m) = true) cm.
Proof.
  induction vars as [|v vars IH]; intros r s cm s' Hv Hr H.
  - cbn [match_loop] in H. unfold ret in H. injection H as <- _. exact Hr.
  - cbn [match_loop] in H. unfold bind in H.
    destruct (MatchVariable remote_embed m v s) as [[ms|err] s0] eqn:E; [|discriminate].
    eapply IH; [| |exact H].
    + intros w Hw. apply Hv, elem_of_cons. right. exact Hw.
    + apply fold_group_ok; [exact Hr|]. intros x Hx.
      destruct (MatchVariable_elem _ _ _ _ _ _ _ E Hx) as [-> G].
      split; [apply Hv, elem_of_cons; left; reflexivity | exact G].
Qed.

(** X4: when [MatchVariables] succeeds, every concept it binds has a
    non-empty group, and every match in the group of concept [c] is for
    [c], is for one of the analysed variables, and scores at or above the
    matcher's threshold. *)
Theorem MatchVariables_groups remote_embed (m : EmbeddingMatcher.t)
    (vars : list VariableInfo.t) (s s' : MatcherState)
    (cm : gmap string (list ConceptMatch.t)) :
  MatchVariables remote_embed m vars s = (Ok cm, s') ->
  forall c ms, cm !! c = Some ms ->
    ms <> [] /\
    forall x, x ∈ ms ->
      ConceptMatch.Concept x = c /\ ConceptMatch.Variable' x ∈ vars /\
      ge32 (ConceptMatch.SimilarityScore x) (EmbeddingMatcher.SimilarityThreshold m) = true.
Proof.
  intros H.
  refine (match_loop_groups remote_embed m vars vars ∅ s cm s' (fun v Hv => Hv) _ H).
  intros c ms Hc. rewrite lookup_empty in Hc. discriminate.
Qed.

Lemma MatchVariables_groups_witness :
  [ConceptMatch.mk (var "is_active" 5) "active"
     (CosineSimilarity (getOfflineEmbedding "is_active") (getOfflineEmbedding "is_active"))]
    <> [] /\
  forall x, x ∈ [ConceptMatch.mk (var "is_active" 5) "active"
                   (CosineSimilarity (getOfflineEmbedding "is_active")
                      (getOfflineEmbedding "is_active"))] ->
    ConceptMatch.Concept x = "active" /\ ConceptMatch.Variable' x ∈ [var "is_active" 5] /\
    ge32 (ConceptMatch.SimilarityScore x) (ratio32 7 10) = true.
Proof.
  apply (MatchVariables_groups (fun _ => Err "unused")
           (NewEmbeddingMatcher [concept_active_offline] true) [var "is_active" 5]
           fresh_state (log_call (OfflineCall "is_active") fresh_state)
           {[ "active" := [ConceptMatch.mk (var "is_active" 5) "active"
                            (CosineSimilarity (getOfflineEmbedding "is_active")
                               (getOfflineEmbedding "is_active"))] ]}).
  - vm_compute. reflexivity.
  - vm_compute. reflexivity.
Defined.

(* ----------------------------------------------------------------- *)
(** ** The built-in catalog *)

Lemma CosineSimilarity_empty_r (a b : Embedding.t) :
  Embedding.Vector b = [] -> CosineSimilarity a b = zero32.
Proof. intros Hb. unfold CosineSimilarity. rewrite Hb. simpl. rewrite orb_true_r. reflexivity. Qed.

Lemma concept_matches_default (offline : bool) (v : VariableInfo.t) (e : Embedding.t) :
  concept_matches (NewEmbeddingMatcher DefaultSecurityConcepts offline) v e = [].
Proof.
  destruct (concept_matches _ v e) as [|x l] eqn:E; [reflexivity|]. exfalso.
  assert (Hx : x ∈ concept_matches (NewEmbeddingMatcher DefaultSecurityConcepts offline) v e).
  { rewrite E. apply elem_of_cons. left. reflexivity. }
  apply concept_matches_elem in Hx as [c [Hc [G _]]].
  assert (Hv : Embedding.Vector (SecurityConcept.Embedding c) = []).
  { cbn [EmbeddingMatcher.Concepts NewEmbeddingMatcher DefaultSecurityConcepts] in Hc.
    repeat (apply elem_of_cons in Hc as [->|Hc]; [reflexivity|]).
    apply not_elem_of_nil in Hc as []. }
  rewrite (CosineSimilarity_empty_r e _ Hv) in G.
  vm_compute in G. discriminate.
Qed.

Lemma match_loop_default remote_embed (offline : bool) :
  forall vars r s cm s',
    match_loop remote_embed (NewEmbeddingMatcher DefaultSecurityConcepts offline) vars r s
      = (Ok cm, s') -> cm = r.
Proof.
  induction vars as [|v vars IH]; intros r s cm s' H.
  - cbn [match_loop] in H. unfold ret in H. injection H as <- _. reflexivity.
  - cbn [match_loop] in H. unfold bind in H.
    destruct (MatchVariable remote_embed _ v s) as [[ms|err] s0] eqn:E; [|discriminate].
    destruct (MatchVariable_inv _ _ _ _ _ _ E) as [e [_ Hms]].
    rewrite concept_matches_default in Hms. subst ms.
    exact (IH r s0 cm s' H).
Qed.

Lemma MatchVariables_default remote_embed (offline : bool) (vars : list VariableInfo.t)
    (s s' : MatcherState) (cm : gmap string (list ConceptMatch.t)) :
  MatchVariables remote_embed (NewEmbeddingMatcher DefaultSecurityConcepts offline) vars s
    = (Ok cm, s') -> cm = ∅.
Proof. apply match_loop_default. Qed.

(** X5: with the built-in catalog (the one [LoadSecurityConcepts] returns
    when no embeddings directory exists), whose concepts carry no vector,
    every score is [0], below the [0.7] threshold: [MatchVariables] binds
    no concept at all whenever it succeeds. *)
Theorem MatchVariables_default_catalog_empty remote_embed (offline : bool)
    (vars : list VariableInfo.t) (s s' : MatcherState)
    (cm : gmap string (list ConceptMatch.t)) :
  MatchVariables remote_embed (NewEmbeddingMatcher DefaultSecurityConcepts offline) vars s
    = (Ok cm, s') -> cm = ∅.
Proof. apply MatchVariables_default. Qed.

Lemma MatchVariables_default_catalog_empty_witness :
  (∅ : gmap string (list ConceptMatch.t)) = ∅.
Proof.
  apply (MatchVariables_default_catalog_empty (fun _ => Err "unused") true
           [var "lock" 3; var "is_active" 5] fresh_state
           (mkState ∅ [OfflineCall "lock"; OfflineCall "is_active"])).
  vm_compute. reflexivity.
Defined.

Lemma ProcessTemplatedQueries_no_matches (l : list (string * QueryTemplate.t)) :
  ProcessTemplatedQueries l ∅ = [].
Proof.
  destruct (ProcessTemplatedQueries l ∅) as [|pq rest] eqn:E; [reflexivity|]. exfalso.
  assert (Hpq : pq ∈ ProcessTemplatedQueries l ∅).
  { rewrite E. apply elem_of_cons. left. reflexivity. }
  unfold ProcessTemplatedQueries in Hpq. apply list_elem_of_omap in Hpq as [[src t] [_ Ht]].
  destruct (QueryTemplate.Concepts t) as [|c cs] eqn:Hc; [discriminate|].
  unfold SubstituteParameters in Ht. rewrite Hc in Ht. simpl in Ht.
  rewrite lookup_empty in Ht. discriminate.
Qed.

(** X6: with the built-in catalog, a run of analyze-smart that reports
    has run exactly the raw query files: no templated query is ever
    parameterized, so the report is [RunQueries] over the query files
    alone. *)
Theorem analyzeSmart_default_catalog_raw_only remote_embed (offline : bool)
    (vars : list VariableInfo.t) (queries : gmap string string) (exec : Executor)
    (queryOrder : list (string * string)) (templateOrder : list (string * QueryTemplate.t))
    (out : RunOutput) :
  analyzeSmart remote_embed DefaultSecurityConcepts offline vars queries exec
    queryOrder templateOrder = Report out ->
  out = RunQueries exec queryOrder.
Proof.
  unfold analyzeSmart.
  destruct (MatchVariables remote_embed (NewEmbeddingMatcher DefaultSecurityConcepts offline)
              vars fresh_state) as [[cm|e] s'] eqn:E; simpl; [|discriminate].
  apply MatchVariables_default in E. subst cm.
  destruct (decide (queries = ∅)); [discriminate|].
  intros [= <-]. rewrite ProcessTemplatedQueries_no_matches. simpl.
  unfold run_app. destruct (RunQueries exec queryOrder). simpl. rewrite !app_nil_r. reflexivity.
Qed.

Lemma analyzeSmart_default_catalog_raw_only_witness :
  RunQueries echo_exec [("a.scm", query_a); ("b.scm", query_b)] =
  RunQueries echo_exec [("a.scm", query_a); ("b.scm", query_b)].
Proof.
  apply (analyzeSmart_default_catalog_raw_only (fun _ => Err "unused") true [var "lock" 3]
           two_queries echo_exec [("a.scm", query_a); ("b.scm", query_b)]
           [(reentrancy_source, reentrancy_template)]).
  vm_compute. reflexivity.
Defined.

(* ----------------------------------------------------------------- *)
(** ** A remote failure stops the run *)

(** X8: in remote mode, when the service fails on the first variable,
    [MatchVariables] stops there (one request logged, nothing cached, no
    later variable sent) and analyze-smart ends with the fatal error
    [Error matching variables: ] followed by the service's message. *)
Theorem analyzeSmart_remote_error_fatal remote_embed (concepts : list SecurityConcept.t)
    (v : VariableInfo.t) (vars : list VariableInfo.t) (queries : gmap string string)
    (exec : Executor) (queryOrder : list (string * string))
    (templateOrder : list (string * QueryTemplate.t)) (e : string) :
  remote_embed (VariableInfo.Name v) = Err e ->
  MatchVariables remote_embed (NewEmbeddingMatcher concepts false) (v :: vars) fresh_state
    = (Err e, mkState ∅ [RemoteCall (VariableInfo.Name v)]) /\
  analyzeSmart remote_embed concepts false (v :: vars) queries exec queryOrder templateOrder
    = Fatal ("Error matching variables: " ++ e).
Proof.
  intros He.
  assert (H1 : MatchVariables remote_embed (NewEmbeddingMatcher concepts false) (v :: vars)
                 fresh_state = (Err e, mkState ∅ [RemoteCall (VariableInfo.Name v)])).
  { unfold MatchVariables. cbn [match_loop].
    unfold bind, MatchVariable, bind, GetVariableEmbedding. simpl.
    rewrite He. reflexivity. }
  split; [exact H1|].
  unfold analyzeSmart. cbv zeta. rewrite H1. reflexivity.
Qed.

Lemma analyzeSmart_remote_error_fatal_witness :
  MatchVariables (fun _ => Err "quota exceeded") (NewEmbeddingMatcher DefaultSecurityConcepts false)
    [var "lock" 3; var "is_active" 5] fresh_state
    = (Err "quota exceeded", mkState ∅ [RemoteCall "lock"]) /\
  analyzeSmart (fun _ => Err "quota exceeded") DefaultSecurityConcepts false
    [var "lock" 3; var "is_active" 5] two_queries echo_exec [] []
    = Fatal ("Error matching variables: " ++ "quota exceeded").
Proof.
  apply (analyzeSmart_remote_error_fatal (fun _ => Err "quota exceeded") DefaultSecurityConcepts
           (var "lock" 3) [var "is_active" 5] two_queries echo_exec [] [] "quota exceeded").
  reflexivity.
Defined.

(* ----------------------------------------------------------------- *)
(** ** Substitution binds exactly the required concepts *)

Lemma substitute_loop_bindings (cs : list string) (cm : gmap string (list ConceptMatch.t)) :
  forall params q params' q',
    substitute_loop cs cm params q = Ok (params', q') ->
    forall c,
      (c ∈ cs -> exists bm rest, cm !! c = Some (bm :: rest) /\
         params' !! c = Some (VariableInfo.Name (ConceptMatch.Variable' bm))) /\
      (c ∉ cs -> params' !! c = params !! c).
Proof.
  induction cs as [|c0 cs IH]; intros params q params' q' H c; cbn [substitute_loop] in H.
  - injection H as <- <-. split; [intros Hc; apply not_elem_of_nil in Hc as [] | reflexivity].
  - destruct (cm !! c0) as [[|bm rest]|] eqn:E; try discriminate.
    destruct (IH _ _ _ _ H c) as [IH1 IH2]. split.
    + intros Hc. destruct (decide (c ∈ cs)) as [Hin|Hnin]; [apply IH1, Hin|].
      apply elem_of_cons in Hc as [->|Hc]; [|contradiction].
      exists bm, rest. split; [exact E|]. rewrite IH2 by exact Hnin. apply lookup_insert_eq.
    + intros Hc. rewrite IH2 by (intros Hin; apply Hc, elem_of_cons; right; exact Hin).
      apply lookup_insert_ne. intros Heq. apply Hc, elem_of_cons. left. symmetry. exact Heq.
Qed.

Lemma substitute_loop_total (cs : list string) (cm : gmap string (list ConceptMatch.t)) :
  (forall c, c ∈ cs -> default [] (cm !! c) <> []) ->
  forall params q, exists r, substitute_loop cs cm params q = Ok r.
Proof.
  induction cs as [|c0 cs IH]; intros H params q; cbn [substitute_loop]; [eexists; reflexivity|].
  destruct (cm !! c0) as [[|bm rest]|] eqn:E.
  - exfalso. apply (H c0); [apply elem_of_cons; left; reflexivity | rewrite E; reflexivity].
  - apply IH. intros c Hc. apply H, elem_of_cons. right. exact Hc.
  - exfalso. apply (H c0); [apply elem_of_cons; left; reflexivity | rewrite E; reflexivity].
Qed.

Lemma SubstituteParameters_Ok (t : QueryTemplate.t) (cm : gmap string (list ConceptMatch.t))
    (pq : ParameterizedQuery.t) :
  SubstituteParameters t cm = Ok pq ->
  ParameterizedQuery.Template pq = t /\
  forall c,
    (c ∈ QueryTemplate.Concepts t -> exists bm rest, cm !! c = Some (bm :: rest) /\
       ParameterizedQuery.Parameters pq !! c =
         Some (VariableInfo.Name (ConceptMatch.Variable' bm))) /\
    (c ∉ QueryTemplate.Concepts t -> ParameterizedQuery.Parameters pq !! c = None).
Proof.
  unfold SubstituteParameters.
  destruct (substitute_loop _ cm ∅ _) as [[params q]|e] eqn:E; [|discriminate].
  intros [= <-]. split; [reflexivity|]. intros c. simpl.
  destruct (substitute_loop_bindings _ _ _ _ _ _ E c) as [H1 H2]. split; [exact H1|].
  intros Hc. rewrite (H2 Hc). apply lookup_empty.
Qed.

Lemma SubstituteParameters_total (t : QueryTemplate.t) (cm : gmap string (list ConceptMatch.t)) :
  (forall c, c ∈ QueryTemplate.Concepts t -> default [] (cm !! c) <> []) ->
  exists pq, SubstituteParameters t cm = Ok pq.
Proof.
  intros H. unfold SubstituteParameters.
  destruct (substitute_loop_total _ cm H ∅ (QueryTemplate.Original t)) as [[params q] E].
  rewrite E. eexists. reflexivity.
Qed.

Lemma SubstituteParameters_Ok_matched (t : QueryTemplate.t)
    (cm : gmap string (list ConceptMatch.t)) (pq : ParameterizedQuery.t) :
  SubstituteParameters t cm = Ok pq ->
  forall c, c ∈ QueryTemplate.Concepts t -> default [] (cm !! c) <> [].
Proof.
  intros H c Hc. destruct (proj2 (SubstituteParameters_Ok t cm pq H) c) as [H1 _].
  destruct (H1 Hc) as [bm [rest [E _]]]. rewrite E. discriminate.
Qed.

(** X9: [SubstituteParameters] succeeds exactly when every concept the
    template requires has a non-empty match list; its parameter map then
    binds each required concept to the name of the first match's
    variable, and binds nothing else. *)
Theorem SubstituteParameters_bindings (t : QueryTemplate.t)
    (cm : gmap string (list ConceptMatch.t)) :
  ((exists pq, SubstituteParameters t cm = Ok pq) <->
   (forall c, c ∈ QueryTemplate.Concepts t -> default [] (cm !! c) <> [])) /\
  (forall pq, SubstituteParameters t cm = Ok pq ->
     ParameterizedQuery.Template pq = t /\
     forall c,
       (c ∈ QueryTemplate.Concepts t -> exists bm rest, cm !! c = Some (bm :: rest) /\
          ParameterizedQuery.Parameters pq !! c =
            Some (VariableInfo.Name (ConceptMatch.Variable' bm))) /\
       (c ∉ QueryTemplate.Concepts t -> ParameterizedQuery.Parameters pq !! c = None)).
Proof.
  split; [split|].
  - intros [pq H]. exact (SubstituteParameters_Ok_matched t cm pq H).
  - apply SubstituteParameters_total.
  - apply SubstituteParameters_Ok.
Qed.

(* ----------------------------------------------------------------- *)
(** ** Which templates are parameterized *)

(** X10: the parameterized queries are exactly the successful
    substitutions of the listed templates that have a non-empty
    [Concepts] line: each comes from a listed template all of whose
    required concepts have matches, and every such template yields one.
    A template with no [Concepts] line is never parameterized, whatever
    placeholders its text holds. *)
Theorem ProcessTemplatedQueries_spec (l : list (string * QueryTemplate.t))
    (cm : gmap string (list ConceptMatch.t)) :
  (forall pq, pq ∈ ProcessTemplatedQueries l cm ->
     exists source, (source, ParameterizedQuery.Template pq) ∈ l /\
       QueryTemplate.Concepts (ParameterizedQuery.Template pq) <> [] /\
       (forall c, c ∈ QueryTemplate.Concepts (ParameterizedQuery.Template pq) ->
          default [] (cm !! c) <> []) /\
       SubstituteParameters (ParameterizedQuery.Template pq) cm = Ok pq) /\
  (forall source t, (source, t) ∈ l -> QueryTemplate.Concepts t <> [] ->
     (forall c, c ∈ QueryTemplate.Concepts t -> default [] (cm !! c) <> []) ->
     exists pq, pq ∈ ProcessTemplatedQueries l cm /\ ParameterizedQuery.Template pq = t).
Proof.
  unfold ProcessTemplatedQueries. split.
  - intros pq Hpq. apply list_elem_of_omap in Hpq as [[source t] [Hin Ht]].
    destruct (QueryTemplate.Concepts t) as [|c cs] eqn:Hc; [discriminate|].
    destruct (SubstituteParameters t cm) as [pq'|e] eqn:Hs; [|discriminate].
    injection Ht as <-.
    pose proof (proj1 (SubstituteParameters_Ok t cm pq' Hs)) as HT. rewrite HT.
    exists source. split; [exact Hin|]. split; [rewrite Hc; discriminate|]. split.
    + exact (SubstituteParameters_Ok_matched t cm pq' Hs).
    + exact Hs.
  - intros source t Hin Hne Hall.
    destruct (SubstituteParameters_total t cm Hall) as [pq Hs].
    exists pq. split.
    + apply list_elem_of_omap. exists (source, t). split; [exact Hin|].
      destruct (QueryTemplate.Concepts t); [contradiction|]. rewrite Hs. reflexivity.
    + exact (proj1 (SubstituteParameters_Ok t cm pq Hs)).
Qed.

(* ----------------------------------------------------------------- *)
(** ** The pattern of a query file *)

Lemma split_on_no_sep (sep : ascii) (x : string) :
  has_char sep x = false -> split_on sep x = [x].
Proof.
  induction x as [|y x IH]; simpl; intros H; [reflexivity|].
  apply orb_false_iff in H as [Hy Hx]. rewrite Hy, IH by exact Hx. reflexivity.
Qed.

Lemma split_on_app_sep (sep : ascii) (x rest : string) :
  has_char sep x = false -> split_on sep (x ++ String sep rest) = x :: split_on sep rest.
Proof.
  induction x as [|y x IH]; intros H.
  - simpl. rewrite Ascii.eqb_refl. reflexivity.
  - rewrite string_app_cons. simpl in H |- *.
    apply orb_false_iff in H as [Hy Hx]. rewrite Hy, IH by exact Hx. reflexivity.
Qed.

Lemma split_on_elems (sep : ascii) (s x : string) :
  x ∈ split_on sep s -> has_char sep x = false.
Proof.
  revert x. induction s as [|y s IH]; intros x H; simpl in H.
  - apply list_elem_of_singleton in H as ->. reflexivity.
  - destruct (Ascii.eqb y sep) eqn:Ey.
    + apply elem_of_cons in H as [->|H]; [reflexivity | apply IH, H].
    + destruct (split_on sep s) as [|w ws] eqn:Es.
      * apply list_elem_of_singleton in H as ->. simpl. rewrite Ey. reflexivity.
      * apply elem_of_cons in H as [->|H].
        -- simpl. rewrite Ey. apply IH. apply elem_of_cons. left. reflexivity.
        -- apply IH. apply elem_of_cons. right. exact H.
Qed.

Lemma sep_app (c : ascii) (r : string) : String c EmptyString ++ r = String c r.
Proof. reflexivity. Qed.

Lemma split_on_join (sep : ascii) (l : list string) :
  l <> [] -> (forall x, x ∈ l -> has_char sep x = false) ->
  split_on sep (join_with (String sep EmptyString) l) = l.
Proof.
  induction l as [|x l IH]; intros Hne H; [contradiction|].
  destruct l as [|y l'].
  - cbn [join_with]. apply split_on_no_sep, H, elem_of_cons. left. reflexivity.
  - change (join_with (String sep EmptyString) (x :: y :: l')) with
      (x ++ String sep EmptyString ++ join_with (String sep EmptyString) (y :: l')).
    rewrite sep_app.
    rewrite split_on_app_sep by (apply H, elem_of_cons; left; reflexivity).
    rewrite IH; [reflexivity | discriminate |].
    intros z Hz. apply H, elem_of_cons. right. exact Hz.
Qed.

Lemma filter_all {A} (P : A -> Prop) `{forall x, Decision (P x)} (l : list A) :
  (forall x, x ∈ l -> P x) -> filter P l = l.
Proof.
  induction l as [|x l IH]; intros HP; [reflexivity|].
  rewrite filter_cons_True by (apply HP, elem_of_cons; left; reflexivity).
  rewrite IH; [reflexivity|]. intros y Hy. apply HP, elem_of_cons. right. exact Hy.
Qed.

Lemma extractQueryPattern_join (q : string) :
  exists L, extractQueryPattern q = join_with nl L /\
    forall x, x ∈ L -> has_char "010"%char x = false /\
      (TrimSpace x =? "") = false /\ starts_with_semicolon (TrimSpace x) = false.
Proof.
  eexists. split; [reflexivity|].
  intros x Hx. apply list_elem_of_filter in Hx as [Hp Hx].
  split; [exact (split_on_elems _ _ _ Hx)|].
  revert Hp. cbv zeta.
  destruct (TrimSpace x =? ""), (starts_with_semicolon (TrimSpace x)); simpl;
    intros Hp; try contradiction; split; reflexivity.
Qed.

(** X11: [extractQueryPattern] is idempotent, and its result is either
    empty or a sequence of lines none of which is blank or a comment
    (starts with [;] once trimmed). *)
Theorem extractQueryPattern_clean (q : string) :
  extractQueryPattern (extractQueryPattern q) = extractQueryPattern q /\
  (extractQueryPattern q = "" \/
   forall line, line ∈ split_on "010"%char (extractQueryPattern q) ->
     TrimSpace line <> "" /\ starts_with_semicolon (TrimSpace line) = false).
Proof.
  destruct (extractQueryPattern_join q) as [L [E HL]]. rewrite E.
  destruct L as [|x L'].
  - split; [|left]; reflexivity.
  - assert (Hs : split_on "010"%char (join_with nl (x :: L')) = x :: L').
    { apply split_on_join; [discriminate|]. intros z Hz. apply (HL z Hz). }
    split.
    + unfold extractQueryPattern at 1. rewrite Hs, filter_all; [reflexivity|].
      intros z Hz. destruct (HL z Hz) as [_ [H1 H2]]. simpl. rewrite H1, H2. exact I.
    + right. intros line Hl. rewrite Hs in Hl. destruct (HL line Hl) as [_ [H1 H2]].
      split; [apply String.eqb_neq, H1 | exact H2].
Qed.

(* ----------------------------------------------------------------- *)
(** ** Where the findings come from *)

(** X12: every finding of [RunQueries] comes from the first capture of a
    match that the executor returned for the pattern of one of the query
    files: its file, description, line ([uint32(row) + 1]) and code are
    those of the file and of that capture, and its name is the file's
    [; Name:] or, without one, the file's base name without extension. *)
Theorem RunQueries_findings (exec : Executor) (queries : list (string * string))
    (r : QueryResult.t) :
  r ∈ results (RunQueries exec queries) ->
  exists file content matches capture rest,
    (file, content) ∈ queries /\
    exec (extractQueryPattern content) = Some matches /\
    (capture :: rest) ∈ matches /\
    QueryResult.QueryFile r = file /\
    QueryResult.Description r = snd (ExtractQueryMetadata content) /\
    QueryResult.LineNumber r = line_of_row (cap_row capture) /\
    QueryResult.Code r = cap_text capture /\
    QueryResult.QueryName r =
      (if String.eqb (fst (ExtractQueryMetadata content)) "" then TrimSuffix (Base file) (Ext file)
       else fst (ExtractQueryMetadata content)).
Proof.
  induction queries as [|[file content] queries IH]; intros Hr.
  - apply not_elem_of_nil in Hr as [].
  - change (results (RunQueries exec ((file, content) :: queries))) with
      (app (results (run_one exec file content)) (results (RunQueries exec queries))) in Hr.
    apply elem_of_app in Hr as [Hr|Hr].
    + unfold run_one in Hr.
      destruct (ExtractQueryMetadata content) as [name0 descr] eqn:Emeta.
      destruct (exec (extractQueryPattern content)) as [matches|] eqn:Eexec;
        cbn [results] in Hr; [|apply not_elem_of_nil in Hr as []].
      apply list_elem_of_omap in Hr as [[|capture rest] [Hin Hc]]; [discriminate|].
      injection Hc as <-.
      exists file, content, matches, capture, rest.
      rewrite Emeta. cbn [fst snd].
      split; [apply elem_of_cons; left; reflexivity|].
      repeat split; (assumption || reflexivity).
    + destruct (IH Hr) as (f & c & ms & cap & rest & Hin & H).
      exists f, c, ms, cap, rest. split; [apply elem_of_cons; right; exact Hin | exact H].
Qed.

(** X13: a query file whose pattern the executor rejects
    ([tree_sitter.NewQuery] fails) contributes neither findings nor an
    executed pattern, and the files visited before and after it run
    exactly as they would without it. *)
Theorem RunQueries_skips_bad_pattern (exec : Executor)
    (before after : list (string * string)) (file content : string) :
  exec (extractQueryPattern content) = None ->
  RunQueries exec (app before ((file, content) :: after)) =
  run_app (RunQueries exec before) (RunQueries exec after).
Proof.
  intros He. induction before as [|[f c] before IH]; cbn [app RunQueries].
  - unfold run_one. destruct (ExtractQueryMetadata content). rewrite He.
    unfold run_app. reflexivity.
  - rewrite IH. unfold run_app. simpl. rewrite !app_assoc. reflexivity.
Qed.

Lemma RunQueries_findings_witness :
  exists file content matches capture rest,
    (file, content) ∈ [("a.scm", query_a)] /\
    echo_exec (extractQueryPattern content) = Some matches /\
    (capture :: rest) ∈ matches /\
    "a.scm" = file /\
    "" = snd (ExtractQueryMetadata content) /\
    1%N = line_of_row (cap_row capture) /\
    "(identifier) @a" = cap_text capture /\
    "A" =
      (if String.eqb (fst (ExtractQueryMetadata content)) "" then TrimSuffix (Base file) (Ext file)
       else fst (ExtractQueryMetadata content)).
Proof.
  apply (RunQueries_findings echo_exec [("a.scm", query_a)]
           (QueryResult.mk "A" "a.scm" "" 1 "(identifier) @a")).
  assert (E : results (RunQueries echo_exec [("a.scm", query_a)]) =
              [QueryResult.mk "A" "a.scm" "" 1 "(identifier) @a"]) by (vm_compute; reflexivity).
  rewrite E. apply elem_of_cons. left. reflexivity.
Defined.

Lemma RunQueries_skips_bad_pattern_witness :
  RunQueries (fun p => if String.eqb p "(number) @b" then None else Some [[mkCapture 2 p]])
    (app [("a.scm", query_a)] (("b.scm", query_b) :: []))
  = run_app (RunQueries (fun p => if String.eqb p "(number) @b" then None else Some [[mkCapture 2 p]])
               [("a.scm", query_a)])
            (RunQueries (fun p => if String.eqb p "(number) @b" then None else Some [[mkCapture 2 p]])
               []).
Proof.
  apply RunQueries_skips_bad_pattern. vm_compute. reflexivity.
Defined.

(* ----------------------------------------------------------------- *)
(** ** The loaders keep the catalog's metadata *)

Lemma map_metadata_alter (e : Embedding.t) (l : list SecurityConcept.t) (i : nat) :
  map concept_metadata (alter (with_embedding e) i l) = map concept_metadata l.
Proof.
  revert i. induction l as [|c l IH]; intros [|i]; simpl; try reflexivity.
  f_equal. apply IH.
Qed.

Lemma concepts_index_spec (l : list SecurityConcept.t) :
  forall k acc n j, concepts_index l k acc !! n = Some j ->
    acc !! n = Some j \/
    ((k <= j)%nat /\ exists c, l !! (j - k)%nat = Some c /\ SecurityConcept.Name c = n).
Proof.
  induction l as [|c l IH]; intros k acc n j H; simpl in H; [left; exact H|].
  destruct (IH _ _ _ _ H) as [H1|[Hk [c' [Hl Hn]]]].
  - destruct (decide (SecurityConcept.Name c = n)) as [<-|Hne].
    + rewrite lookup_insert_eq in H1. injection H1 as <-. right. split; [lia|].
      exists c. rewrite Nat.sub_diag. split; reflexivity.
    + rewrite lookup_insert_ne in H1 by exact Hne. left. exact H1.
  - right. split; [lia|]. exists c'.
    replace (j - k)%nat with (S (j - S k)) by lia. split; [exact Hl | exact Hn].
Qed.

Lemma concepts_index_lookup (l : list SecurityConcept.t) (n : string) (j : nat) :
  concepts_index l 0 ∅ !! n = Some j ->
  exists c, l !! j = Some c /\ SecurityConcept.Name c = n.
Proof.
  intros H. destruct (concepts_index_spec l 0 ∅ n j H) as [H1|[_ H1]].
  - rewrite lookup_empty in H1. discriminate.
  - rewrite Nat.sub_0_r in H1. exact H1.
Qed.

Section Merge.

Variable concepts : list SecurityConcept.t.
Variable entries : list EmbeddingEntry.t.

Lemma merge_entry_merged (l : list SecurityConcept.t) (entry : EmbeddingEntry.t) :
  entry ∈ entries -> merged concepts entries l ->
  merged concepts entries (merge_entry (concepts_index concepts 0 ∅) l entry).
Proof.
  intros Hin [Hmeta Hl]. unfold merge_entry.
  destruct (concepts_index concepts 0 ∅ !! EmbeddingEntry.ConceptName entry) as [i|] eqn:Ei;
    [|split; assumption].
  split; [rewrite map_metadata_alter; exact Hmeta|].
  intros i' c' H'. destruct (decide (i = i')) as [<-|Hne].
  - rewrite list_lookup_alter_eq in H'.
    destruct (l !! i) as [c''|] eqn:El; simpl in H'; [|discriminate].
    injection H' as <-.
    destruct (concepts_index_lookup concepts _ i Ei) as [c [Hc Hn]].
    exists c. split; [exact Hc|]. right. exists entry. split; [exact Hin|].
    split; [symmetry; exact Hn | reflexivity].
  - rewrite list_lookup_alter_ne in H' by exact Hne. apply Hl. exact H'.
Qed.

Lemma fold_merge_merged (es : list EmbeddingEntry.t) (l : list SecurityConcept.t) :
  (forall entry, entry ∈ es -> entry ∈ entries) -> merged concepts entries l ->
  merged concepts entries (fold_left (merge_entry (concepts_index concepts 0 ∅)) es l).
Proof.
  revert l. induction es as [|entry es IH]; intros l Hes Hl; simpl; [exact Hl|].
  apply IH.
  - intros e He. apply Hes, elem_of_cons. right. exact He.
  - apply merge_entry_merged; [apply Hes, elem_of_cons; left; reflexivity | exact Hl].
Qed.

End Merge.

(** X14: when the split layout loads, the catalog is the list parsed
    from [concepts.toml]: same length, order, names, descriptions and
    synonyms.  Only vectors change: each concept keeps its own vector or
    takes that of an [embeddings.toml] entry named after it; entries for
    unknown concepts are ignored. *)
Theorem loadSplitFormat_keeps_catalog
    (parse_concepts : string -> option (list SecurityConcept.t))
    (parse_embeddings : string -> option (list EmbeddingEntry.t))
    (fs : Filesystem) (conceptsFile embeddingsFile : string) (cs : list SecurityConcept.t) :
  loadSplitFormat parse_concepts parse_embeddings fs conceptsFile embeddingsFile = Ok cs ->
  exists data concepts,
    ReadFile fs conceptsFile = Ok data /\ parse_concepts data = Some concepts /\
    map concept_metadata cs = map concept_metadata concepts /\
    forall i c', cs !! i = Some c' -> exists c, concepts !! i = Some c /\
      (SecurityConcept.Embedding c' = SecurityConcept.Embedding c \/
       exists data' entries entry,
         ReadFile fs embeddingsFile = Ok data' /\ parse_embeddings data' = Some entries /\
         entry ∈ entries /\ EmbeddingEntry.ConceptName entry = SecurityConcept.Name c /\
         SecurityConcept.Embedding c' = EmbeddingEntry.Embedding entry).
Proof.
  unfold loadSplitFormat.
  destruct (ReadFile fs conceptsFile) as [data|e] eqn:Ec; [|discriminate].
  destruct (parse_concepts data) as [concepts|] eqn:Epc; [|discriminate].
  intros H. exists data, concepts.
  split; [first [reflexivity | exact Ec]|]. split; [first [reflexivity | exact Epc]|].
  destruct (ReadFile fs embeddingsFile) as [data'|e] eqn:Ee.
  2: { injection H as <-. split; [reflexivity|]. intros i c' Hc'. exists c'. auto. }
  destruct (parse_embeddings data') as [entries|] eqn:Ep.
  2: { injection H as <-. split; [reflexivity|]. intros i c' Hc'. exists c'. auto. }
  injection H as <-.
  destruct (fold_merge_merged concepts entries entries concepts (fun e He => He))
    as [Hmeta Hl].
  { split; [reflexivity|]. intros i c' Hc'. exists c'. auto. }
  split; [exact Hmeta|]. intros i c' Hc'.
  destruct (Hl i c' Hc') as [c [Hc [He|[entry [Hin [Hn Hemb]]]]]];
    exists c; split; auto.
  right. exists data', entries, entry. auto.
Qed.

Lemma loadSplitFormat_keeps_catalog_witness :
  exists data concepts,
    ReadFile split_bad_embeddings "embeddings/concepts.toml" = Ok data /\
    parse_ok_concepts data = Some concepts /\
    map concept_metadata [with_embedding (Embedding.mk [of_Z32 1]) (default_concept "locked" "guard" [])]
      = map concept_metadata concepts /\
    forall i c', [with_embedding (Embedding.mk [of_Z32 1]) (default_concept "locked" "guard" [])] !! i
                   = Some c' ->
      exists c, concepts !! i = Some c /\
      (SecurityConcept.Embedding c' = SecurityConcept.Embedding c \/
       exists data' entries entry,
         ReadFile split_bad_embeddings "embeddings/embeddings.toml" = Ok data' /\
         (fun _ : string => Some [EmbeddingEntry.mk "unknown" (Embedding.mk [of_Z32 2]);
                                  EmbeddingEntry.mk "locked" (Embedding.mk [of_Z32 1])]) data'
           = Some entries /\
         entry ∈ entries /\ EmbeddingEntry.ConceptName entry = SecurityConcept.Name c /\
         SecurityConcept.Embedding c' = EmbeddingEntry.Embedding entry).
Proof.
  apply (loadSplitFormat_keeps_catalog parse_ok_concepts
           (fun _ => Some [EmbeddingEntry.mk "unknown" (Embedding.mk [of_Z32 2]);
                           EmbeddingEntry.mk "locked" (Embedding.mk [of_Z32 1])])
           split_bad_embeddings "embeddings/concepts.toml" "embeddings/embeddings.toml").
  vm_compute. reflexivity.
Defined.

Section Legacy.

Variable concepts : list SecurityConcept.t.
Variable parse_embedding : string -> option Embedding.t.
Variable fs : Filesystem.
Variable subdir : string.

Lemma legacy_step_merged (l : list SecurityConcept.t) (i : nat) (c : SecurityConcept.t) :
  concepts !! i = Some c -> legacy_merged concepts parse_embedding fs subdir l ->
  legacy_merged concepts parse_embedding fs subdir (legacy_embedding_step parse_embedding fs subdir l (i, c)).
Proof.
  intros Hc [Hmeta Hl]. unfold legacy_embedding_step.
  destruct (negb (stat fs _)); [split; assumption|].
  destruct (ReadFile fs (join subdir (SecurityConcept.Name c ++ ".toml"))) as [data|err] eqn:Er;
    [|split; assumption].
  destruct (parse_embedding data) as [e|] eqn:Ep; [|split; assumption].
  split; [rewrite map_metadata_alter; exact Hmeta|].
  intros i' c' H'. destruct (decide (i = i')) as [<-|Hne].
  - rewrite list_lookup_alter_eq in H'.
    destruct (l !! i) as [c''|]; simpl in H'; [|discriminate].
    injection H' as <-. exists c. split; [exact Hc|]. right. exists data, e. auto.
  - rewrite list_lookup_alter_ne in H' by exact Hne. apply Hl. exact H'.
Qed.

Lemma fold_legacy_merged (ics : list (nat * SecurityConcept.t)) (l : list SecurityConcept.t) :
  (forall i c, (i, c) ∈ ics -> concepts !! i = Some c) -> legacy_merged concepts parse_embedding fs subdir l ->
  legacy_merged concepts parse_embedding fs subdir (fold_left (legacy_embedding_step parse_embedding fs subdir) ics l).
Proof.
  revert l. induction ics as [|[i c] ics IH]; intros l Hics Hl; simpl; [exact Hl|].
  apply IH.
  - intros j d Hj. apply Hics, elem_of_cons. right. exact Hj.
  - apply legacy_step_merged; [apply Hics, elem_of_cons; left; reflexivity | exact Hl].
Qed.

End Legacy.

Lemma imap_pair_elem (l : list SecurityConcept.t) (i : nat) (c : SecurityConcept.t) :
  (i, c) ∈ imap pair l -> l !! i = Some c.
Proof.
  intros H. apply list_elem_of_lookup in H as [j Hj].
  rewrite list_lookup_imap in Hj. destruct (l !! j) eqn:E; simpl in Hj; [|discriminate].
  injection Hj as -> ->. exact E.
Qed.

(** X15: when the legacy metadata layout loads, the catalog is the list
    parsed from [concepts_metadata.toml] with the same metadata, and each
    concept keeps its own vector or takes the one parsed from
    [embeddings/<its name>.toml]; no other file supplies a vector. *)
Theorem loadLegacyMetadataFormat_keeps_catalog
    (parse_concepts : string -> option (list SecurityConcept.t))
    (parse_embedding : string -> option Embedding.t)
    (fs : Filesystem) (embeddingsDir : string) (cs : list SecurityConcept.t) :
  loadLegacyMetadataFormat parse_concepts parse_embedding fs embeddingsDir = Ok cs ->
  exists data concepts,
    ReadFile fs (join embeddingsDir "concepts_metadata.toml") = Ok data /\
    parse_concepts data = Some concepts /\
    map concept_metadata cs = map concept_metadata concepts /\
    forall i c', cs !! i = Some c' -> exists c, concepts !! i = Some c /\
      (SecurityConcept.Embedding c' = SecurityConcept.Embedding c \/
       exists data' e,
         ReadFile fs (join (join embeddingsDir "embeddings") (SecurityConcept.Name c ++ ".toml"))
           = Ok data' /\
         parse_embedding data' = Some e /\ SecurityConcept.Embedding c' = e).
Proof.
  unfold loadLegacyMetadataFormat. cbv zeta.
  destruct (ReadFile fs (join embeddingsDir "concepts_metadata.toml")) as [data|e] eqn:Ec;
    [|discriminate].
  destruct (parse_concepts data) as [concepts|] eqn:Epc; [|discriminate].
  intros H. exists data, concepts.
  split; [first [reflexivity | exact Ec]|]. split; [first [reflexivity | exact Epc]|].
  destruct (stat fs (join embeddingsDir "embeddings")).
  2: { injection H as <-. split; [reflexivity|]. intros i c' Hc'. exists c'. auto. }
  injection H as <-.
  apply (fold_legacy_merged concepts parse_embedding fs (join embeddingsDir "embeddings")).
  - intros i c Hic. apply imap_pair_elem. exact Hic.
  - split; [reflexivity|]. intros i c' Hc'. exists c'. auto.
Qed.

Lemma loadLegacyMetadataFormat_keeps_catalog_witness :
  exists data concepts,
    ReadFile {[ "embeddings" := FDir; "embeddings/concepts_metadata.toml" := FFile "ok";
                "embeddings/embeddings" := FDir;
                "embeddings/embeddings/locked.toml" := FFile "v" ]}
      (join "embeddings" "concepts_metadata.toml") = Ok data /\
    parse_ok_concepts data = Some concepts /\
    map concept_metadata [with_embedding (Embedding.mk [of_Z32 1]) (default_concept "locked" "guard" [])]
      = map concept_metadata concepts /\
    forall i c', [with_embedding (Embedding.mk [of_Z32 1]) (default_concept "locked" "guard" [])] !! i
                   = Some c' ->
      exists c, concepts !! i = Some c /\
      (SecurityConcept.Embedding c' = SecurityConcept.Embedding c \/
       exists data' e,
         ReadFile {[ "embeddings" := FDir; "embeddings/concepts_metadata.toml" := FFile "ok";
                     "embeddings/embeddings" := FDir;
                     "embeddings/embeddings/locked.toml" := FFile "v" ]}
           (join (join "embeddings" "embeddings") (SecurityConcept.Name c ++ ".toml")) = Ok data' /\
         (fun _ : string => Some (Embedding.mk [of_Z32 1])) data' = Some e /\
         SecurityConcept.Embedding c' = e).
Proof.
  apply (loadLegacyMetadataFormat_keeps_catalog parse_ok_concepts
           (fun _ => Some (Embedding.mk [of_Z32 1]))
           {[ "embeddings" := FDir; "embeddings/concepts_metadata.toml" := FFile "ok";
              "embeddings/embeddings" := FDir;
              "embeddings/embeddings/locked.toml" := FFile "v" ]} "embeddings").
  vm_compute. reflexivity.
Defined.

(* ----------------------------------------------------------------- *)
(** ** The parameters of a template *)

Lemma string_app_assoc (a b c : string) : ((a ++ b) ++ c = a ++ (b ++ c))%string.
Proof. induction a as [|x a IH]; [reflexivity|]. rewrite !string_app_cons, IH. reflexivity. Qed.

Lemma ident_run_split (s : string) :
  s = (ident_run s ++ str_drop (String.length (ident_run s)) s)%string.
Proof.
  induction s as [|x s IH]; [reflexivity|]. simpl.
  destruct (is_ident_char x); [|reflexivity].
  simpl. rewrite string_app_cons. f_equal. exact IH.
Qed.

Lemma ident_run_chars (s : string) :
  forallb is_ident_char (list_ascii_of_string (ident_run s)) = true.
Proof.
  induction s as [|x s IH]; [reflexivity|]. simpl.
  destruct (is_ident_char x) eqn:E; [|reflexivity]. simpl. rewrite E, IH. reflexivity.
Qed.

Lemma param_at_spec (s nm : string) (len : nat) :
  param_at s = Some (nm, len) ->
  is_ident nm = true /\ exists post, s = (placeholder nm ++ post)%string.
Proof.
  unfold param_at. destruct s as [|d [|b rest]]; try discriminate.
  destruct (Ascii.eqb d "$"%char && Ascii.eqb b "{"%char) eqn:Edb; [|discriminate].
  apply andb_prop in Edb as [Ed Eb]. apply Ascii.eqb_eq in Ed, Eb. subst d b.
  destruct rest as [|c r]; [discriminate|].
  destruct (is_ident_start c) eqn:Ec; [|discriminate]. cbv zeta.
  remember (ident_run (String c r)) as nm0 eqn:Enm.
  pose proof (ident_run_split (String c r)) as Hsplit. rewrite <- Enm in Hsplit.
  destruct (str_drop (String.length nm0) (String c r)) as [|e post] eqn:Edrop;
    [discriminate|].
  destruct (Ascii.eqb e "}"%char) eqn:Ee; [|discriminate].
  intros [= <- _]. apply Ascii.eqb_eq in Ee. subst e.
  assert (Hc : is_ident_char c = true) by (unfold is_ident_char; rewrite Ec; reflexivity).
  split.
  - subst nm0. simpl. rewrite Hc. simpl. rewrite Ec. apply ident_run_chars.
  - exists post. rewrite Hsplit at 1. unfold placeholder.
    rewrite (string_app_assoc "${" (nm0 ++ "}") post), (string_app_assoc nm0 "}" post).
    reflexivity.
Qed.

Lemma scan_params_go_spec (s : string) :
  forall k nm, nm ∈ scan_params_go s k ->
    is_ident nm = true /\ exists pre post, s = (pre ++ placeholder nm ++ post)%string.
Proof.
  induction s as [|x s IH]; intros k nm H; cbn [scan_params_go] in H.
  - apply not_elem_of_nil in H as [].
  - assert (Hrest : (exists k', nm ∈ scan_params_go s k') \/
                     exists len, param_at (String x s) = Some (nm, len)).
    { destruct k as [|k]; [|left; exists k; exact H].
      destruct (param_at (String x s)) as [[nm' len]|] eqn:Ep; [|left; exists O; exact H].
      apply elem_of_cons in H as [->|H]; [right; exists len; first [exact Ep | reflexivity]|].
      left. exists (len - 1)%nat. exact H. }
    destruct Hrest as [[k' H']|[len Ep]].
    + destruct (IH _ _ H') as [Hi [pre [post Hs]]]. split; [exact Hi|].
      exists (String x pre), post. rewrite Hs. reflexivity.
    + destruct (param_at_spec _ _ _ Ep) as [Hi [post Hs]]. split; [exact Hi|].
      exists EmptyString, post. exact Hs.
Qed.

(** X16: every parameter [ParseQueryTemplate] records is an identifier
    [[a-zA-Z_][a-zA-Z0-9_]*] whose placeholder [${name}] occurs literally in
    the query text. *)
Theorem ParseQueryTemplate_parameters (queryContent source p : string) :
  p ∈ QueryTemplate.Parameters (ParseQueryTemplate queryContent source) ->
  is_ident p = true /\
  exists pre post, queryContent = (pre ++ placeholder p ++ post)%string.
Proof.
  intros H. unfold ParseQueryTemplate in H. cbn [QueryTemplate.Parameters] in H.
  apply elem_of_list_to_set in H. exact (scan_params_go_spec _ _ _ H).
Qed.

Lemma ParseQueryTemplate_parameters_witness :
  is_ident "locked" = true /\
  exists pre post, missing_reentrancy_guard_scm = (pre ++ placeholder "locked" ++ post)%string.
Proof.
  apply (ParseQueryTemplate_parameters missing_reentrancy_guard_scm reentrancy_source "locked").
  apply (bool_decide_unpack _). vm_compute. exact I.
Defined.

(* ----------------------------------------------------------------- *)
(** ** Offline matching never consults the remote service *)

Lemma match_loop_offline_indep (re1 re2 : string -> result Embedding.t) (m : EmbeddingMatcher.t) :
  EmbeddingMatcher.Offline m = true ->
  forall vars r s, match_loop re1 m vars r s = match_loop re2 m vars r s.
Proof.
  intros Hoff. induction vars as [|v vars IH]; intros r s; [reflexivity|].
  cbn [match_loop]. unfold bind, MatchVariable, bind, ret, GetVariableEmbedding.
  destruct (Cache s !! VariableInfo.Name v); [apply IH|]. rewrite Hoff. apply IH.
Qed.

Lemma match_loop_offline_state (re : string -> result Embedding.t) (m : EmbeddingMatcher.t) :
  EmbeddingMatcher.Offline m = true ->
  forall vars r s, exists cm s',
    match_loop re m vars r s = (Ok cm, s') /\ Cache s' = Cache s /\
    forall call, call ∈ Calls s' ->
      call ∈ Calls s \/ exists v, v ∈ vars /\ call = OfflineCall (VariableInfo.Name v).
Proof.
  intros Hoff. induction vars as [|v vars IH]; intros r s.
  - exists r, s. split; [reflexivity|]. split; [reflexivity|]. intros call H. left. exact H.
  - cbn [match_loop]. unfold bind, MatchVariable, bind, ret, GetVariableEmbedding.
    destruct (Cache s !! VariableInfo.Name v) as [e0|].
    + destruct (IH (fold_left group_match (sort_matches (concept_matches m v e0)) r) s)
        as [cm [s' [E [Hc Hcalls]]]].
      exists cm, s'. split; [exact E|]. split; [exact Hc|].
      intros call Hin. destruct (Hcalls call Hin) as [H|[w [Hw ->]]]; [left; exact H|].
      right. exists w. split; [apply elem_of_cons; right; exact Hw | reflexivity].
    + rewrite Hoff.
      destruct (IH (fold_left group_match
                      (sort_matches (concept_matches m v (getOfflineEmbedding (VariableInfo.Name v)))) r)
                   (log_call (OfflineCall (VariableInfo.Name v)) s))
        as [cm [s' [E [Hc Hcalls]]]].
      exists cm, s'. split; [exact E|]. split; [exact Hc|].
      intros call Hin. destruct (Hcalls call Hin) as [H|[w [Hw ->]]].
      * simpl in H. apply elem_of_app in H as [H|H]; [left; exact H|].
        apply list_elem_of_singleton in H as ->. right. exists v.
        split; [apply elem_of_cons; left|]; reflexivity.
      * right. exists w. split; [apply elem_of_cons; right; exact Hw | reflexivity].
Qed.

(** X17: in offline mode [MatchVariables] never consults the remote
    strategy: its result and final state are the same whatever the
    remote strategy does; it never fails, never writes the cache, and
    logs only offline computations of the analysed variables' names. *)
Theorem MatchVariables_offline_no_remote (re1 re2 : string -> result Embedding.t)
    (m : EmbeddingMatcher.t) (vars : list VariableInfo.t) (s : MatcherState) :
  EmbeddingMatcher.Offline m = true ->
  MatchVariables re1 m vars s = MatchVariables re2 m vars s /\
  exists cm s', MatchVariables re1 m vars s = (Ok cm, s') /\ Cache s' = Cache s /\
    forall call, call ∈ Calls s' ->
      call ∈ Calls s \/ exists v, v ∈ vars /\ call = OfflineCall (VariableInfo.Name v).
Proof.
  intros Hoff. split.
  - apply match_loop_offline_indep. exact Hoff.
  - apply match_loop_offline_state. exact Hoff.
Qed.

Lemma MatchVariables_offline_no_remote_witness :
  MatchVariables (fun _ => Err "unreachable") (NewEmbeddingMatcher [concept_active_offline] true)
    [var "is_active" 5] fresh_state =
  MatchVariables (fun _ => Ok (Embedding.mk [])) (NewEmbeddingMatcher [concept_active_offline] true)
    [var "is_active" 5] fresh_state /\
  exists cm s', MatchVariables (fun _ => Err "unreachable")
                  (NewEmbeddingMatcher [concept_active_offline] true) [var "is_active" 5]
                  fresh_state = (Ok cm, s') /\ Cache s' = Cache fresh_state /\
    forall call, call ∈ Calls s' ->
      call ∈ Calls fresh_state \/
      exists v, v ∈ [var "is_active" 5] /\ call = OfflineCall (VariableInfo.Name v).
Proof.
  apply MatchVariables_offline_no_remote. reflexivity.
Defined.

(* ----------------------------------------------------------------- *)
(** ** The loader, layer by layer *)

Lemma LoadSecurityConcepts_located_none parse_concepts parse_embeddings parse_embedding
    (execDir : option string) (fs : Filesystem) :
  located_layer execDir fs = None ->
  LoadSecurityConcepts parse_concepts parse_embeddings parse_embedding execDir fs
    = Ok DefaultSecurityConcepts.
Proof.
  unfold located_layer, LoadSecurityConcepts.
  destruct (list_find _ _) as [[i d]|]; [|reflexivity].
  destruct (stat fs (join d "concepts.toml")), (stat fs (join d "embeddings.toml"));
    cbn [andb orb negb]; [discriminate| | |];
  destruct (stat fs (join d "security_concepts.toml")); [discriminate| |discriminate| |discriminate|];
  destruct (stat fs (join d "concepts_metadata.toml")); first [discriminate | reflexivity].
Qed.

Lemma LoadSecurityConcepts_located_some parse_concepts parse_embeddings parse_embedding
    (execDir : option string) (fs : Filesystem) (d : string) (l : Layer) :
  located_layer execDir fs = Some (d, l) ->
  LoadSecurityConcepts parse_concepts parse_embeddings parse_embedding execDir fs =
    match l with
    | SplitLayer =>
        loadSplitFormat parse_concepts parse_embeddings fs
          (join d "concepts.toml") (join d "embeddings.toml")
    | LegacyFileLayer => loadLegacySecurityConcepts parse_concepts fs (join d "security_concepts.toml")
    | LegacyMetadataLayer => loadLegacyMetadataFormat parse_concepts parse_embedding fs d
    end.
Proof.
  unfold located_layer, LoadSecurityConcepts.
  destruct (list_find _ _) as [[i d']|]; [|discriminate].
  destruct (stat fs (join d' "concepts.toml")), (stat fs (join d' "embeddings.toml"));
    cbn [andb orb negb];
  [intros H; injection H as <- <-; reflexivity| | |];
  destruct (stat fs (join d' "security_concepts.toml"));
  try (intros H; injection H as <- <-; reflexivity);
  destruct (stat fs (join d' "concepts_metadata.toml"));
  intros H; try discriminate; injection H as <- <-; reflexivity.
Qed.

Lemma layer_load_fails_iff parse_concepts parse_embeddings parse_embedding
    (fs : Filesystem) (d : string) (l : Layer) :
  (exists e,
     match l with
     | SplitLayer =>
         loadSplitFormat parse_concepts parse_embeddings fs
           (join d "concepts.toml") (join d "embeddings.toml")
     | LegacyFileLayer => loadLegacySecurityConcepts parse_concepts fs (join d "security_concepts.toml")
     | LegacyMetadataLayer => loadLegacyMetadataFormat parse_concepts parse_embedding fs d
     end = Err e) <->
  primary_malformed parse_concepts fs (layer_file d l) = true.
Proof.
  destruct l; unfold layer_file, primary_malformed.
  - unfold loadSplitFormat.
    destruct (ReadFile fs (join d "concepts.toml")) as [data|err];
      [|split; [reflexivity | intros _; eexists; reflexivity]].
    destruct (parse_concepts data) as [concepts|];
      [|split; [reflexivity | intros _; eexists; reflexivity]].
    split; [|discriminate]. intros [e E].
    destruct (ReadFile fs (join d "embeddings.toml")); [|discriminate].
    destruct (parse_embeddings _); discriminate.
  - unfold loadLegacySecurityConcepts.
    destruct (ReadFile fs (join d "security_concepts.toml")) as [data|err];
      [|split; [reflexivity | intros _; eexists; reflexivity]].
    destruct (parse_concepts data) as [concepts|];
      [|split; [reflexivity | intros _; eexists; reflexivity]].
    split; [intros [e E]; discriminate | discriminate].
  - unfold loadLegacyMetadataFormat. cbv zeta.
    destruct (ReadFile fs (join d "concepts_metadata.toml")) as [data|err];
      [|split; [reflexivity | intros _; eexists; reflexivity]].
    destruct (parse_concepts data) as [concepts|];
      [|split; [reflexivity | intros _; eexists; reflexivity]].
    split; [|discriminate]. intros [e E].
    destruct (stat fs (join d "embeddings")); discriminate.
Qed.

Lemma layer_load_keeps_catalog parse_concepts parse_embeddings parse_embedding
    (fs : Filesystem) (d : string) (l : Layer) (data : string) (concepts : list SecurityConcept.t) :
  ReadFile fs (layer_file d l) = Ok data -> parse_concepts data = Some concepts ->
  exists cs,
    match l with
    | SplitLayer =>
        loadSplitFormat parse_concepts parse_embeddings fs
          (join d "concepts.toml") (join d "embeddings.toml")
    | LegacyFileLayer => loadLegacySecurityConcepts parse_concepts fs (join d "security_concepts.toml")
    | LegacyMetadataLayer => loadLegacyMetadataFormat parse_concepts parse_embedding fs d
    end = Ok cs /\
    map concept_metadata cs = map concept_metadata concepts /\
    forall i c', cs !! i = Some c' -> exists c, concepts !! i = Some c /\
      (SecurityConcept.Embedding c' = SecurityConcept.Embedding c \/
       vector_from parse_embeddings parse_embedding fs d l c (SecurityConcept.Embedding c')).
Proof.
  intros Hr Hp. destruct l; unfold layer_file in Hr.
  - unfold loadSplitFormat. rewrite Hr, Hp.
    destruct (ReadFile fs (join d "embeddings.toml")) as [data'|err] eqn:Ee.
    2: { exists concepts. split; [reflexivity|]. split; [reflexivity|].
         intros i c' Hc'. exists c'. auto. }
    destruct (parse_embeddings data') as [entries|] eqn:Epe.
    2: { exists concepts. split; [reflexivity|]. split; [reflexivity|].
         intros i c' Hc'. exists c'. auto. }
    eexists. split; [reflexivity|].
    destruct (fold_merge_merged concepts entries entries concepts (fun e He => He))
      as [Hmeta Hl].
    { split; [reflexivity|]. intros i c' Hc'. exists c'. auto. }
    split; [exact Hmeta|]. intros i c' Hc'.
    destruct (Hl i c' Hc') as [c [Hc [He|[entry [Hin [Hn Hemb]]]]]];
      exists c; split; auto.
    right. exists data', entries, entry. auto.
  - unfold loadLegacySecurityConcepts. rewrite Hr, Hp.
    exists concepts. split; [reflexivity|]. split; [reflexivity|].
    intros i c' Hc'. exists c'. auto.
  - unfold loadLegacyMetadataFormat. cbv zeta. rewrite Hr, Hp.
    destruct (stat fs (join d "embeddings")).
    2: { exists concepts. split; [reflexivity|]. split; [reflexivity|].
         intros i c' Hc'. exists c'. auto. }
    eexists. split; [reflexivity|].
    destruct (fold_legacy_merged concepts parse_embedding fs (join d "embeddings")
                (imap pair concepts) concepts) as [Hmeta Hl].
    { intros i c Hic. apply imap_pair_elem. exact Hic. }
    { split; [reflexivity|]. intros i c' Hc'. exists c'. auto. }
    split; [exact Hmeta|]. intros i c' Hc'.
    destruct (Hl i c' Hc') as [c [Hc [He|[data' [e [Hd [He' Hemb]]]]]]];
      exists c; split; auto.
    right. exists data'. rewrite Hemb. auto.
Qed.

(** C5 (amended): loading fails exactly when the file of the located
    layer (split [concepts.toml], [security_concepts.toml] or
    [concepts_metadata.toml], located by falling through the layers whose
    files are missing) cannot be read or does not parse.  When no layer
    is located, the built-in defaults are loaded.  When the located
    layer's file is read and parsed, the loaded catalog is its concept
    list (same length, names, descriptions and synonyms); each concept
    keeps its own vector unless a vector file of the layer was read and
    parsed and supplies one for it, so a malformed or unreadable
    [embeddings.toml] or per-concept vector file only leaves the
    concepts without those vectors. *)
Theorem LoadSecurityConcepts_fails_iff
    (parse_concepts : string -> option (list SecurityConcept.t))
    (parse_embeddings : string -> option (list EmbeddingEntry.t))
    (parse_embedding : string -> option Embedding.t)
    (execDir : option string) (fs : Filesystem) :
  ((exists e, LoadSecurityConcepts parse_concepts parse_embeddings parse_embedding execDir fs = Err e)
   <-> exists d l, located_layer execDir fs = Some (d, l) /\
                  primary_malformed parse_concepts fs (layer_file d l) = true) /\
  (located_layer execDir fs = None ->
   LoadSecurityConcepts parse_concepts parse_embeddings parse_embedding execDir fs
     = Ok DefaultSecurityConcepts) /\
  (forall d l data concepts,
     located_layer execDir fs = Some (d, l) ->
     ReadFile fs (layer_file d l) = Ok data -> parse_concepts data = Some concepts ->
     exists cs,
       LoadSecurityConcepts parse_concepts parse_embeddings parse_embedding execDir fs = Ok cs /\
       map concept_metadata cs = map concept_metadata concepts /\
       forall i c', cs !! i = Some c' -> exists c, concepts !! i = Some c /\
         (SecurityConcept.Embedding c' = SecurityConcept.Embedding c \/
          vector_from parse_embeddings parse_embedding fs d l c (SecurityConcept.Embedding c'))).
Proof.
  split; [|split].
  - destruct (located_layer execDir fs) as [[d l]|] eqn:El.
    + rewrite (LoadSecurityConcepts_located_some parse_concepts parse_embeddings parse_embedding
                 execDir fs d l El).
      rewrite (layer_load_fails_iff parse_concepts parse_embeddings parse_embedding fs d l).
      split; [intros Hm; exists d, l; auto|].
      intros (d' & l' & E & Hm). injection E as <- <-. exact Hm.
    + rewrite (LoadSecurityConcepts_located_none parse_concepts parse_embeddings parse_embedding
                 execDir fs El).
      split; [intros [e E]; discriminate | intros (d & l & E & _); discriminate].
  - apply LoadSecurityConcepts_located_none.
  - intros d l data concepts El Hr Hp.
    rewrite (LoadSecurityConcepts_located_some parse_concepts parse_embeddings parse_embedding
               execDir fs d l El).
    exact (layer_load_keeps_catalog parse_concepts parse_embeddings parse_embedding
             fs d l data concepts Hr Hp).
Qed.
